(** * A Sea of Islands: the traversal engine of [IslandNetwork]

    Shallow embedding of the TypeScript class [IslandNetwork] (and of the
    two [IslandTour] classes, whose [dfs], [findMaxExperiences],
    [calculatePriority] and [shareKnowledge] are the same text with the
    field [resourceOrExperienceTime] spelled [experienceTime]).

    Conventions of the embedding.
    - [Map<string, _>] is a [gmap string _], [Set<string>] a [gset string].
    - Edge costs, counters, populations and timestamps are integers ([Z]);
      the values that can be non-finite (the entries of [lastVisit], which
      start at [-Infinity], and what [calculatePriority] computes from
      them) use [number], which adds the IEEE special values to the
      integers.  Rounding of large or fractional doubles is outside the
      model.
    - Methods run in the monad [M]: a state monad over [Runtime] (the
      object's fields, the clock behind [Date.now()], the console, and a
      list of ghost probes recording call entries and returns) that can
      run out of fuel ([None]).  Fuel bounds recursion depth for the two
      recursive methods and loop iterations for the [while] loop. *)

From stdpp Require Import gmap strings list fin_maps.
From Stdlib Require Import ZArith Lia.

Local Open Scope Z_scope.
#[local] Set Warnings "-clear-no-such-hyp".

(** ** Numbers *)

(** The JavaScript values of type [number] that the program can produce:
    integers and the three special values. *)
Inductive number : Type :=
| Fin (z : Z)
| PosInfinity
| NegInfinity
| NaN.

Definition is_NaN (x : number) : bool :=
  match x with NaN => true | _ => false end.

(** Truthiness of a number, as used by [x || 0]: [0] and [NaN] are falsy. *)
Definition truthy (x : number) : bool :=
  match x with
  | Fin z => negb (z =? 0)
  | NaN => false
  | _ => true
  end.

(** [x || 0] for [x : number | undefined]. *)
Definition or_zero (x : option number) : number :=
  match x with
  | Some v => if truthy v then v else Fin 0
  | None => Fin 0
  end.

(** [a - b] *)
Definition num_sub (a b : number) : number :=
  match a, b with
  | NaN, _ | _, NaN => NaN
  | Fin x, Fin y => Fin (x - y)
  | Fin _, PosInfinity => NegInfinity
  | Fin _, NegInfinity => PosInfinity
  | PosInfinity, PosInfinity => NaN
  | PosInfinity, _ => PosInfinity
  | NegInfinity, NegInfinity => NaN
  | NegInfinity, _ => NegInfinity
  end.

(** Multiplication of an infinity of sign [positive] by the integer [z]. *)
Definition scale_infinity (positive : bool) (z : Z) : number :=
  match z ?= 0 with
  | Eq => NaN
  | Gt => if positive then PosInfinity else NegInfinity
  | Lt => if positive then NegInfinity else PosInfinity
  end.

(** [a * b] *)
Definition num_mul (a b : number) : number :=
  match a, b with
  | NaN, _ | _, NaN => NaN
  | Fin x, Fin y => Fin (x * y)
  | Fin x, PosInfinity | PosInfinity, Fin x => scale_infinity true x
  | Fin x, NegInfinity | NegInfinity, Fin x => scale_infinity false x
  | PosInfinity, PosInfinity | NegInfinity, NegInfinity => PosInfinity
  | PosInfinity, NegInfinity | NegInfinity, PosInfinity => NegInfinity
  end.

(** [a > b] *)
Definition num_gtb (a b : number) : bool :=
  match a, b with
  | NaN, _ | _, NaN => false
  | Fin x, Fin y => bool_decide (y < x)
  | Fin _, NegInfinity => true
  | Fin _, PosInfinity => false
  | PosInfinity, PosInfinity => false
  | PosInfinity, _ => true
  | NegInfinity, _ => false
  end.

(** [x] is a maximal priority: no number compares greater than it, and it
    is a number one can compare with at all. *)
Definition maximal (x : number) : Prop :=
  is_NaN x = false ∧ ∀ y, num_gtb y x = false.

(** ** Data model *)

(** [type Neighbor] *)
Record Neighbor : Type := mkNeighbor {
  node : string;
  travelTime : Z;
  resourceOrExperienceTime : Z
}.

(** The fields of [class IslandNetwork]. *)
Record IslandNetwork : Type := mkIslandNetwork {
  graph : gmap string (list Neighbor);
  populations : gmap string Z;
  lastVisit : gmap string number;
  canoesAvailable : Z;
  resourcesDistributed : gset string
}.

(** [new IslandNetwork(canoes)] *)
Definition constructor (canoes : Z) : IslandNetwork :=
  mkIslandNetwork ∅ ∅ ∅ canoes ∅.

(** Lines written by [console.log]. *)
Inductive Line : Type :=
| Starting (start : string)
| Visited (island : string) (population : option Z) (time : option number)
| Queueing (nextNode : string) (travelTime : Z).

(** Ghost probes.  [stack] is the chain of [current] arguments of the
    invocations that have not returned yet, innermost first.
    - [DfsEnter]: entry to [dfs], with the set [visited], [totalTime] and
      [experienceCount] it was called with;
    - [DfsLeave]: return from [dfs], with the set [visited] at that time;
    - [DistEnter], [DistLeave]: entry to and return from
      [distributeResource], with [this.canoesAvailable] at that time;
    - [Plant]: [this.resourcesDistributed.add(current); resourceCount++]. *)
Inductive Probe : Type :=
| DfsEnter (stack : list string) (visited : gset string)
           (totalTime experienceCount : Z)
| DfsLeave (stack : list string) (visited : gset string)
| DistEnter (stack : list string) (canoes : Z)
| Plant (island : string)
| DistLeave (stack : list string) (canoes : Z).

(** What a method can read and change: the object, the clock ([clock]
    gives the value of the [n]-th call of [Date.now()], [reads] counts
    the calls made so far), the console and the probes. *)
Record Runtime : Type := mkRuntime {
  self : IslandNetwork;
  clock : nat → Z;
  reads : nat;
  console : list Line;
  probes : list Probe
}.

(** ** The monad *)

Definition M (A : Type) : Type := Runtime → option (A * Runtime).

#[global] Instance M_ret : MRet M := λ A x s, Some (x, s).

#[global] Instance M_bind : MBind M := λ A B f m s,
  match m s with
  | Some (x, s') => f x s'
  | None => None
  end.

(** The bound on depth or on iterations is hit.  [None] is passed on by
    every bind, so a run that returns [Some] has not hit the bound. *)
Definition out_of_fuel {A : Type} : M A := λ _, None.

Definition get_self : M IslandNetwork := λ s, Some (self s, s).

Definition put_self (o : IslandNetwork) : M unit := λ s,
  Some ((), mkRuntime o (clock s) (reads s) (console s) (probes s)).

Definition Date_now : M Z := λ s,
  Some (clock s (reads s),
        mkRuntime (self s) (clock s) (S (reads s)) (console s) (probes s)).

Definition console_log (l : Line) : M unit := λ s,
  Some ((), mkRuntime (self s) (clock s) (reads s) (console s ++ [l]) (probes s)).

Definition probe (p : Probe) : M unit := λ s,
  Some ((), mkRuntime (self s) (clock s) (reads s) (console s) (probes s ++ [p])).

(** [for (const x of l) { acc = body(x, acc) }] *)
Definition for_of {A S : Type} (body : A → S → M S) : list A → S → M S :=
  fix go (l : list A) (acc : S) : M S :=
    match l with
    | [] => mret acc
    | x :: l' => acc' ← body x acc; go l' acc'
    end.

(** Field updates of [this]. *)
Definition set_graph (g : gmap string (list Neighbor)) (o : IslandNetwork) :=
  mkIslandNetwork g (populations o) (lastVisit o) (canoesAvailable o) (resourcesDistributed o).
Definition set_populations (p : gmap string Z) (o : IslandNetwork) :=
  mkIslandNetwork (graph o) p (lastVisit o) (canoesAvailable o) (resourcesDistributed o).
Definition set_lastVisit (v : gmap string number) (o : IslandNetwork) :=
  mkIslandNetwork (graph o) (populations o) v (canoesAvailable o) (resourcesDistributed o).
Definition set_canoesAvailable (c : Z) (o : IslandNetwork) :=
  mkIslandNetwork (graph o) (populations o) (lastVisit o) c (resourcesDistributed o).
Definition set_resourcesDistributed (d : gset string) (o : IslandNetwork) :=
  mkIslandNetwork (graph o) (populations o) (lastVisit o) (canoesAvailable o) d.

Definition modify_self (f : IslandNetwork → IslandNetwork) : M unit :=
  o ← get_self; put_self (f o).

(** ** Graph store *)

(** [addIslandOrExperience(island, neighbors, population?)] *)
Definition addIslandOrExperience (island : string) (neighbors : list Neighbor)
    (population : option Z) : M unit :=
  modify_self (λ o, set_graph (<[island := neighbors]> (graph o)) o);;
  match population with
  | Some p =>
      modify_self (λ o, set_populations (<[island := p]> (populations o)) o);;
      modify_self (λ o, set_lastVisit (<[island := NegInfinity]> (lastVisit o)) o)
  | None => mret ()
  end.

(** [this.graph.get(current) || []]: an array is truthy, so only an
    absent key gives the empty list. *)
Definition neighbors_of (o : IslandNetwork) (current : string) : list Neighbor :=
  default [] (graph o !! current).

(** Every island that is the target of some edge of the graph. *)
Definition targets (g : gmap string (list Neighbor)) : gset string :=
  ⋃ ((λ kv : string * list Neighbor, list_to_set (node <$> kv.2)) <$> map_to_list g).

(** ** Budget-constrained depth-first enumeration *)

(** The literal of [newTime < 100]. *)
Definition time_limit : Z := 100.

(** The body of the [for] loop of [dfs], for one [neighbor]; [call] is
    [this.dfs] and [limit] the literal [100].  The loop variables are the
    set [visited] (one object, mutated in place and shared down the
    recursion, so it is threaded through the calls and returned) and
    [currentMaxExperiences]. *)
Definition dfs_edge (limit : Z)
    (call : list string → string → gset string → Z → Z → Z → M (gset string * Z))
    (stack : list string) (totalTime experienceCount : Z)
    (neighbor : Neighbor) (vars : gset string * Z) : M (gset string * Z) :=
  let '(visited, currentMaxExperiences) := vars in
  let nextNode := node neighbor in
  if decide (nextNode ∈ visited) then mret (visited, currentMaxExperiences)
  else
    let visited := visited ∪ {[nextNode]} in
    let newTime := totalTime + travelTime neighbor + resourceOrExperienceTime neighbor in
    let newExperienceCount := experienceCount + 1 in
    '(visited, currentMaxExperiences) ←
      (if bool_decide (newTime < limit)
       then call (nextNode :: stack) nextNode visited newTime
                 currentMaxExperiences newExperienceCount
       else mret (visited, currentMaxExperiences));
    mret (visited ∖ {[nextNode]}, currentMaxExperiences).

(** [dfs], with the literal [100] abstracted as [limit]. *)
Fixpoint dfs (limit : Z) (fuel : nat) (stack : list string) (current : string)
    (visited : gset string) (totalTime maxExperiencesCount experienceCount : Z)
    : M (gset string * Z) :=
  match fuel with
  | O => out_of_fuel
  | S fuel =>
      probe (DfsEnter stack visited totalTime experienceCount);;
      let currentMaxExperiences := Z.max maxExperiencesCount experienceCount in
      o ← get_self;
      let neighbors := neighbors_of o current in
      '(visited, currentMaxExperiences) ←
        for_of (dfs_edge limit (dfs limit fuel) stack totalTime experienceCount)
               neighbors (visited, currentMaxExperiences);
      probe (DfsLeave stack visited);;
      mret (visited, currentMaxExperiences)
  end.

(** Recursion depth that [dfs] cannot exceed on this graph: every nested
    call is on a target that is not yet in [visited]. *)
Definition dfs_depth (o : IslandNetwork) : nat := S (size (targets (graph o))).

(** [maxReachableCount(start, budgetThreshold)]: [findMaxExperiences]
    with the literal abstracted. *)
Definition maxReachableCount (limit : Z) (start : string) : M Z :=
  o ← get_self;
  let visited : gset string := {[start]} in
  '(_, r) ← dfs limit (dfs_depth o) [start] start visited 0 0 1;
  mret r.

(** [findMaxExperiences(start)] *)
Definition findMaxExperiences (start : string) : M Z :=
  maxReachableCount time_limit start.

(** ** Priority scorer *)

(** [calculatePriority(island)] *)
Definition calculatePriority (island : string) : M number :=
  o ← get_self;
  let population := default 0 (populations o !! island) in
  now ← Date_now;
  let recencyFactor := num_sub (Fin now) (or_zero (lastVisit o !! island)) in
  mret (num_mul (Fin population) recencyFactor).

(** ** Broadcast traversal *)

(** The body of the [for] loop of [shareKnowledge], for one [neighbor].
    [Date.now()] is called only when [visited.has(nextNode)] holds. *)
Definition shareKnowledge_edge (visitInterval : Z) (neighbor : Neighbor)
    (vars : gset string * list string) : M (gset string * list string) :=
  let '(visited, queue) := vars in
  let nextNode := node neighbor in
  requeue ←
    (if decide (nextNode ∈ visited)
     then
       now ← Date_now;
       o ← get_self;
       mret (num_gtb (num_sub (Fin now) (or_zero (lastVisit o !! nextNode)))
                     (Fin visitInterval))
     else mret true);
  if (requeue : bool)
  then
    console_log (Queueing nextNode (travelTime neighbor));;
    mret (visited ∪ {[nextNode]}, queue ++ [nextNode])
  else mret (visited, queue).

(** The [while (queue.length > 0)] loop of [shareKnowledge]; [steps]
    bounds the number of iterations.  [queue.shift()] on a non-empty
    array takes its head; [!currentIsland] holds for the empty string. *)
Fixpoint shareKnowledge_loop (steps : nat) (visitInterval : Z)
    (visited : gset string) (queue : list string) : M unit :=
  match queue with
  | [] => mret ()
  | currentIsland :: queue =>
      match steps with
      | O => out_of_fuel
      | S steps =>
          if decide (currentIsland = "")
          then shareKnowledge_loop steps visitInterval visited queue
          else
            now ← Date_now;
            modify_self (λ o, set_lastVisit (<[currentIsland := Fin now]> (lastVisit o)) o);;
            o ← get_self;
            console_log (Visited currentIsland (populations o !! currentIsland)
                                 (lastVisit o !! currentIsland));;
            let neighbors := neighbors_of o currentIsland in
            '(visited, queue) ←
              for_of (shareKnowledge_edge visitInterval) neighbors (visited, queue);
            shareKnowledge_loop steps visitInterval visited queue
      end
  end.

(** [shareKnowledge(start, visitInterval)], stopped after [steps]
    iterations of its loop. *)
Definition shareKnowledge (steps : nat) (start : string) (visitInterval : Z) : M unit :=
  let visited : gset string := {[start]} in
  let queue := [start] in
  console_log (Starting start);;
  shareKnowledge_loop steps visitInterval visited queue.

(** ** Resource distribution *)

Definition add_canoes (d : Z) : M unit :=
  modify_self (λ o, set_canoesAvailable (canoesAvailable o + d) o).

(** The body of the [for] loop of [distributeResource], for one
    [neighbor]; [call] is [this.distributeResource]. *)
Definition distribute_edge (call : list string → string → Z → Z → M Z)
    (stack : list string) (totalTime : Z) (neighbor : Neighbor) (resourceCount : Z)
    : M Z :=
  let nextIsland := node neighbor in
  o ← get_self;
  if bool_decide (0 < canoesAvailable o)
     && bool_decide (totalTime + travelTime neighbor
                     + resourceOrExperienceTime neighbor < 100)
  then
    let newTotalTime :=
      totalTime + travelTime neighbor + resourceOrExperienceTime neighbor in
    add_canoes (-1);;
    resourceCount ← call (nextIsland :: stack) nextIsland newTotalTime resourceCount;
    add_canoes 1;;
    mret resourceCount
  else mret resourceCount.

(** [distributeResource(current, totalTime, resourceCount)] *)
Fixpoint distributeResource (fuel : nat) (stack : list string) (current : string)
    (totalTime resourceCount : Z) : M Z :=
  match fuel with
  | O => out_of_fuel
  | S fuel =>
      o ← get_self;
      probe (DistEnter stack (canoesAvailable o));;
      if decide (current ∈ resourcesDistributed o)
      then
        probe (DistLeave stack (canoesAvailable o));;
        mret resourceCount
      else
        modify_self (λ o, set_resourcesDistributed (resourcesDistributed o ∪ {[current]}) o);;
        probe (Plant current);;
        let resourceCount := resourceCount + 1 in
        o ← get_self;
        let neighbors := neighbors_of o current in
        resourceCount ←
          for_of (distribute_edge (distributeResource fuel) stack totalTime)
                 neighbors resourceCount;
        o ← get_self;
        probe (DistLeave stack (canoesAvailable o));;
        mret resourceCount
  end.

(** Recursion depth that [distributeResource] cannot exceed: below the
    first call, every call that descends further plants a target that
    had no resource yet. *)
Definition distribute_depth (o : IslandNetwork) : nat :=
  S (S (size (targets (graph o)))).

(** [distributeFrom(start)] *)
Definition distributeFrom (start : string) : M Z :=
  modify_self (set_resourcesDistributed ∅);;
  o ← get_self;
  distributeResource (distribute_depth o) [start] start 0 0.

(** ** Running a method *)

(** A freshly started program around the object [o], with clock [clk]. *)
Definition boot (o : IslandNetwork) (clk : nat → Z) : Runtime :=
  mkRuntime o clk 0 [] [].

(** The state reached from [s] by a command that returns nothing. *)
Definition after (m : M unit) (s : Runtime) : Runtime :=
  match m s with
  | Some (_, s') => s'
  | None => s
  end.

(** The state built by a sequence of registrations from a fresh object
    with [canoes] canoes and the clock [clk]. *)
Definition built (canoes : Z) (clk : nat → Z) (registrations : M unit) : Runtime :=
  after registrations (boot (constructor canoes) clk).

(** A clock that starts at some epoch and advances by one at every read. *)
Definition running_clock (n : nat) : Z := 1700000000000 + Z.of_nat n.

(** A clock that never advances. *)
Definition frozen_clock (n : nat) : Z := 1700000000000.

(** The program's own demonstration: [new IslandNetwork(3)] and its four
    registrations. *)
Definition demo : Runtime :=
  built 3 running_clock
    (addIslandOrExperience "experience1"
       [mkNeighbor "experience2" 10 5; mkNeighbor "experience3" 15 8] (Some 1000);;
     addIslandOrExperience "experience2" [mkNeighbor "experience4" 20 12] (Some 800);;
     addIslandOrExperience "experience3" [mkNeighbor "experience5" 10 7] (Some 500);;
     addIslandOrExperience "experience4" [] (Some 1200)).

(** The graph of the concrete scenario: A→B (10+5), A→C (15+8), B→D (20+12),
    with three canoes. *)
Definition scenario : Runtime :=
  built 3 running_clock
    (addIslandOrExperience "A" [mkNeighbor "B" 10 5; mkNeighbor "C" 15 8] None;;
     addIslandOrExperience "B" [mkNeighbor "D" 20 12] None).

(** The same graph with no canoe. *)
Definition scenario_without_canoes : Runtime :=
  built 0 running_clock
    (addIslandOrExperience "A" [mkNeighbor "B" 10 5; mkNeighbor "C" 15 8] None;;
     addIslandOrExperience "B" [mkNeighbor "D" 20 12] None).

(** One edge A→B whose cost is exactly the limit (60+40). *)
Definition exact_budget : Runtime :=
  built 0 running_clock (addIslandOrExperience "A" [mkNeighbor "B" 60 40] None).

(** One edge A→B whose cost is one below the limit (60+39). *)
Definition under_budget : Runtime :=
  built 0 running_clock (addIslandOrExperience "A" [mkNeighbor "B" 60 39] None).

(** D is reachable from A through B and through C. *)
Definition diamond : Runtime :=
  built 3 running_clock
    (addIslandOrExperience "A" [mkNeighbor "B" 1 1; mkNeighbor "C" 1 1] None;;
     addIslandOrExperience "B" [mkNeighbor "D" 1 1] None;;
     addIslandOrExperience "C" [mkNeighbor "D" 1 1] None).

(** One registered island with the given population, never visited. *)
Definition lone_island (population : Z) : Runtime :=
  built 0 running_clock (addIslandOrExperience "X" [] (Some population)).

(** Two registered islands with an edge each way, and the clock [clk]. *)
Definition two_cycle (clk : nat → Z) : Runtime :=
  built 0 clk
    (addIslandOrExperience "A" [mkNeighbor "B" 10 5] (Some 1000);;
     addIslandOrExperience "B" [mkNeighbor "A" 10 5] (Some 800)).

(** ** Vocabulary of the statements *)

(** Total correctness: [m] started in [s] returns, and [Q] holds of the
    value and the final state. *)
Definition returns {A : Type} (m : M A) (s : Runtime) (Q : A → Runtime → Prop) : Prop :=
  ∃ x s', m s = Some (x, s') ∧ Q x s'.

(** [s] with the probes [evs] appended and nothing else changed. *)
Definition with_probes (s : Runtime) (evs : list Probe) : Runtime :=
  mkRuntime (self s) (clock s) (reads s) (console s) (probes s ++ evs).

(** The islands planted by a sequence of probes, in order. *)
Definition planted (evs : list Probe) : list string :=
  omap (λ p, match p with Plant x => Some x | _ => None end) evs.

(** What a probe of a [dfs] invocation started with [stack] and
    [totalTime] must look like. *)
Definition dfs_probe_ok (limit : Z) (stack : list string) (totalTime : Z)
    (p : Probe) : Prop :=
  match p with
  | DfsEnter stk v t n =>
      v = list_to_set stk ∧ NoDup stk ∧ stack `suffix_of` stk
      ∧ (stk = stack → t = totalTime) ∧ (stk ≠ stack → t < limit)
      ∧ n = Z.of_nat (length stk)
  | DfsLeave stk v =>
      v = list_to_set stk ∧ NoDup stk ∧ stack `suffix_of` stk
  | _ => False
  end.

(** The greatest [experienceCount] carried by an entry to [dfs] among
    the probes [evs], or [floor] when none exceeds it. *)
Definition deepest (floor : Z) (evs : list Probe) : Z :=
  fold_left (λ acc p, match p with DfsEnter _ _ _ n => Z.max acc n | _ => acc end)
            evs floor.

(** The postcondition of a [dfs] invocation entered with the running
    maximum [best]; [floor] is a lower bound of the result. *)
Definition dfs_post (limit : Z) (stack : list string) (visited : gset string)
    (totalTime best floor : Z) (s : Runtime) (res : gset string * Z) (s' : Runtime)
    : Prop :=
  res.1 = visited ∧ floor ≤ res.2
  ∧ ∃ evs, s' = with_probes s evs ∧ Forall (dfs_probe_ok limit stack totalTime) evs
           ∧ res.2 = deepest best evs.

(** [s] with the distributed set replaced by [d] and the probes [evs]
    appended; the canoe counter and everything else as in [s]. *)
Definition with_distribution (s : Runtime) (d : gset string) (evs : list Probe) : Runtime :=
  mkRuntime (set_resourcesDistributed d (self s)) (clock s) (reads s) (console s)
            (probes s ++ evs).

(** The canoe counter seen by a probe, plus the depth of the stack at that
    probe, is the constant [base]. *)
Definition dist_probe_ok (base : Z) (stack : list string) (p : Probe) : Prop :=
  match p with
  | DistEnter stk c | DistLeave stk c =>
      stack `suffix_of` stk ∧ c + Z.of_nat (length stk) = base
  | Plant _ => True
  | _ => False
  end.

(** The postcondition of a [distributeResource] invocation. *)
Definition dist_post (stack : list string) (resourceCount : Z) (s : Runtime)
    (r : Z) (s' : Runtime) : Prop :=
  ∃ evs,
    s' = with_distribution s
           (resourcesDistributed (self s) ∪ list_to_set (planted evs)) evs
    ∧ NoDup (planted evs)
    ∧ (∀ x, x ∈ planted evs → x ∉ resourcesDistributed (self s))
    ∧ r = resourceCount + Z.of_nat (length (planted evs))
    ∧ Forall (dist_probe_ok (canoesAvailable (self s) + Z.of_nat (length stack)) stack) evs.

(** The graph has an edge from [a] to [b]. *)
Definition has_edge (o : IslandNetwork) (a b : string) : Prop :=
  ∃ neighbor, neighbor ∈ neighbors_of o a ∧ node neighbor = b.

(** Every call of [Date.now()] returns more than the call before it. *)
Definition ticking (clk : nat → Z) : Prop := ∀ n, clk n < clk (S n).

(** [island] carries a timestamp that is older than the next clock value. *)
Definition stamped (u : Runtime) (island : string) : Prop :=
  ∃ t, lastVisit (self u) !! island = Some (Fin t) ∧ t < clock u (reads u).

(** At the head of the [while] loop: one of [a], [b] is waiting in the
    queue, and whichever of them has been seen is either waiting or
    carries an old timestamp. *)
Definition cycle_alive (o : IslandNetwork) (clk : nat → Z) (a b : string)
    (u : Runtime) (visited : gset string) (queue : list string) : Prop :=
  graph (self u) = graph o ∧ clock u = clk
  ∧ (a ∈ queue ∨ b ∈ queue)
  ∧ ∀ y, y = a ∨ y = b → y ∈ visited → y ∈ queue ∨ stamped u y.

(** ** Vocabulary of the further properties *)

(** [path] is a sequence of edges that [dfs] may follow from [current]:
    each edge leaves the island reached so far, leads to an island that
    is not yet in [visited], and keeps the running time below [limit]. *)
Fixpoint admissible (o : IslandNetwork) (limit : Z) (visited : gset string)
    (current : string) (totalTime : Z) (path : list Neighbor) : Prop :=
  match path with
  | [] => True
  | e :: path =>
      e ∈ neighbors_of o current ∧ (node e ∉ visited)
      ∧ totalTime + travelTime e + resourceOrExperienceTime e < limit
      ∧ admissible o limit (visited ∪ {[node e]}) (node e)
                   (totalTime + travelTime e + resourceOrExperienceTime e) path
  end.

(** Every edge of [o1] is an edge of [o2]. *)
Definition edges_included (o1 o2 : IslandNetwork) : Prop :=
  ∀ current e, e ∈ neighbors_of o1 current → e ∈ neighbors_of o2 current.

(** [IslandTour.addExperience] of [Problem1.ts]: the population is
    required, so the metadata is always written. *)
Module Problem1.
Definition addExperience (experience : string) (neighbors : list Neighbor)
    (population : Z) : M unit :=
  modify_self (λ o, set_graph (<[experience := neighbors]> (graph o)) o);;
  modify_self (λ o, set_populations (<[experience := population]> (populations o)) o);;
  modify_self (λ o, set_lastVisit (<[experience := NegInfinity]> (lastVisit o)) o).
End Problem1.

(** [IslandTour.addExperience] of [Problem4.ts]: that class has the field
    [graph] only. *)
Module Problem4.
Definition addExperience (experience : string) (neighbors : list Neighbor) : M unit :=
  modify_self (λ o, set_graph (<[experience := neighbors]> (graph o)) o).
End Problem4.

(** Two states that agree on what the distribution reads: the graph, the
    canoes and the distributed set. *)
Definition same_for_distribution (u1 u2 : Runtime) : Prop :=
  graph (self u1) = graph (self u2)
  ∧ canoesAvailable (self u1) = canoesAvailable (self u2)
  ∧ resourcesDistributed (self u1) = resourcesDistributed (self u2).

(** The state in which the program's own broadcast leaves its graph. *)
Definition demo_after_broadcast : Runtime :=
  after (shareKnowledge 5 "experience1" 10000) demo.

(** In [u], [island] carries a timestamp that the clock gave between
    the state [s] and the state [u]. *)
Definition stamped_during (s u : Runtime) (island : string) : Prop :=
  ∃ n, (reads s ≤ n < reads u)%nat
       ∧ lastVisit (self u) !! island = Some (Fin (clock s n)).

(** The broadcast goes from [x] to [y]: [x] is an island the loop does
    not skip, and there is an edge from [x] to [y]. *)
Definition passable (o : IslandNetwork) (x y : string) : Prop :=
  x ≠ "" ∧ has_edge o x y.

(** What a broadcast started in [s] may have changed when it is in [u]:
    last visits, which it replaces by timestamps of its own (never that of
    the empty name), and the number of clock reads. *)
Definition broadcast_frame (s u : Runtime) : Prop :=
  graph (self u) = graph (self s)
  ∧ populations (self u) = populations (self s)
  ∧ canoesAvailable (self u) = canoesAvailable (self s)
  ∧ resourcesDistributed (self u) = resourcesDistributed (self s)
  ∧ clock u = clock s ∧ probes u = probes s ∧ (reads s ≤ reads u)%nat
  ∧ lastVisit (self u) !! "" = lastVisit (self s) !! ""
  ∧ ∀ y, lastVisit (self u) !! y = lastVisit (self s) !! y ∨ stamped_during s u y.

(** At the head of the [while] loop of a broadcast started in [s]:
    [handled] are the islands dequeued so far; each carries a timestamp
    of this broadcast and all its edge targets have been seen; every seen
    island with a name is waiting in the queue or has been handled. *)
Definition broadcast_inv (s u : Runtime) (visited : gset string)
    (queue : list string) (handled : gset string) : Prop :=
  broadcast_frame s u
  ∧ (∀ x, x ∈ handled →
       x ≠ "" ∧ stamped_during s u x
       ∧ ∀ e, e ∈ neighbors_of (self s) x → node e ∈ visited)
  ∧ (∀ y, y ∈ visited → y ≠ "" → y ∈ queue ∨ y ∈ handled).

(** The number of islands at the head of the queue that have been
    handled already. *)
Fixpoint handled_prefix (handled : gset string) (queue : list string) : nat :=
  match queue with
  | [] => 0
  | y :: queue => if decide (y ∈ handled) then S (handled_prefix handled queue) else 0
  end.

(** From the state [s] on, the clock never advances by more than
    [visitInterval] between two reads, however far apart. *)
Definition calm (s : Runtime) (visitInterval : Z) : Prop :=
  ∀ n m, (reads s ≤ n ≤ m)%nat → clock s m - clock s n ≤ visitInterval.

(** No edge leads to the island with the empty name. *)
Definition named_targets (o : IslandNetwork) : Prop :=
  ∀ current e, e ∈ neighbors_of o current → node e ≠ "".

(** At the head of the [while] loop of a broadcast started in [s] at
    [start], for the termination argument: every island in the queue has
    been seen, the seen islands are [start] and edge targets, and the
    [handled] islands are seen and carry a timestamp of this broadcast. *)
Definition broadcast_progress (s : Runtime) (start : string) (u : Runtime)
    (visited : gset string) (queue : list string) (handled : gset string) : Prop :=
  graph (self u) = graph (self s) ∧ clock u = clock s ∧ (reads s ≤ reads u)%nat
  ∧ visited ⊆ {[start]} ∪ targets (graph (self s))
  ∧ handled ⊆ visited
  ∧ (∀ y, y ∈ queue → y ∈ visited)
  ∧ (∀ y, y ∈ handled → stamped_during s u y).

(** ** Reasoning about [M] *)

Lemma returns_ret {A} (x : A) s (Q : A → Runtime → Prop) :
  Q x s → returns (mret x) s Q.
Proof. intros HQ. by exists x, s. Qed.

Lemma returns_eq {A} (m : M A) s x s' (Q : A → Runtime → Prop) :
  m s = Some (x, s') → Q x s' → returns m s Q.
Proof. intros. by exists x, s'. Qed.

Lemma returns_mono {A} (m : M A) s (Q Q' : A → Runtime → Prop) :
  returns m s Q → (∀ x s', Q x s' → Q' x s') → returns m s Q'.
Proof. intros (x & s' & Hm & HQ) HQQ. exists x, s'. eauto. Qed.

Lemma returns_bind {A B} (m : M A) (f : A → M B) s (Q : B → Runtime → Prop) :
  returns m s (λ x s', returns (f x) s' Q) → returns (m ≫= f) s Q.
Proof.
  intros (x & s' & Hm & y & s'' & Hf & HQ). exists y, s''. split; [|done].
  unfold mbind, M_bind. by rewrite Hm.
Qed.

(** A loop whose body always returns and keeps [I] returns and keeps [I]. *)
Lemma returns_for_of {A B} (body : A → B → M B) (I : B → Runtime → Prop) l :
  (∀ x acc s, x ∈ l → I acc s → returns (body x acc) s I) →
  ∀ acc s, I acc s → returns (for_of body l acc) s I.
Proof.
  induction l as [|x l IH]; intros Hbody acc s HI; simpl.
  - by apply returns_ret.
  - apply returns_bind. apply returns_mono with (Q := I).
    + apply Hbody; [apply list_elem_of_here|done].
    + intros acc' s' HI'. apply IH; [|done].
      intros y acc0 s0 Hy. apply Hbody. by apply list_elem_of_further.
Qed.

(** The same for two loops over one list, run side by side. *)
Lemma for_of_related {A B} (body1 body2 : A → B → M B)
    (R : B → Runtime → B → Runtime → Prop) l :
  (∀ x a1 s1 a2 s2, x ∈ l → R a1 s1 a2 s2 →
     ∃ b1 t1 b2 t2, body1 x a1 s1 = Some (b1, t1) ∧ body2 x a2 s2 = Some (b2, t2)
                    ∧ R b1 t1 b2 t2) →
  ∀ a1 s1 a2 s2, R a1 s1 a2 s2 →
    ∃ b1 t1 b2 t2, for_of body1 l a1 s1 = Some (b1, t1)
                   ∧ for_of body2 l a2 s2 = Some (b2, t2) ∧ R b1 t1 b2 t2.
Proof.
  induction l as [|x l IH]; intros Hbody a1 s1 a2 s2 HR; simpl.
  - by exists a1, s1, a2, s2.
  - destruct (Hbody x a1 s1 a2 s2) as (b1 & t1 & b2 & t2 & H1 & H2 & HR');
      [apply list_elem_of_here|done|].
    unfold mbind, M_bind. rewrite H1, H2.
    apply IH; [|done]. intros y b1' t1' b2' t2' Hy. apply Hbody.
    by apply list_elem_of_further.
Qed.

(** A loop whose body returns whenever another body does, with the same
    result, returns whenever the other loop does, with the same result. *)
Lemma for_of_mono {A B} (body1 body2 : A → B → M B) l :
  (∀ x acc s r, body1 x acc s = Some r → body2 x acc s = Some r) →
  ∀ acc s r, for_of body1 l acc s = Some r → for_of body2 l acc s = Some r.
Proof.
  intros Hbody. induction l as [|x l IH]; intros acc s r; simpl; [done|].
  unfold mbind, M_bind. destruct (body1 x acc s) as [[acc' s']|] eqn:Hx; [|done].
  rewrite (Hbody _ _ _ _ Hx). apply IH.
Qed.

Lemma with_probes_nil s : with_probes s [] = s.
Proof. destruct s. unfold with_probes. simpl. by rewrite app_nil_r. Qed.

Lemma with_probes_app s evs evs' :
  with_probes (with_probes s evs) evs' = with_probes s (evs ++ evs').
Proof. unfold with_probes. simpl. by rewrite app_assoc. Qed.

Lemma returns_probe p s (Q : unit → Runtime → Prop) :
  Q () (with_probes s [p]) → returns (probe p) s Q.
Proof. intros. by eapply returns_eq. Qed.

Lemma returns_get_self s (Q : IslandNetwork → Runtime → Prop) :
  Q (self s) s → returns get_self s Q.
Proof. intros. by eapply returns_eq. Qed.

(** ** The graph *)

Lemma neighbors_of_targets o current neighbor :
  neighbor ∈ neighbors_of o current → node neighbor ∈ targets (graph o).
Proof.
  unfold neighbors_of, targets. intros Hin.
  destruct (graph o !! current) as [ns|] eqn:Hg; simpl in Hin; [|by inversion Hin].
  apply elem_of_union_list. exists (list_to_set (node <$> ns)). split.
  - apply list_elem_of_fmap. exists (current, ns). split; [done|].
    by apply elem_of_map_to_list.
  - apply elem_of_list_to_set, list_elem_of_fmap. eauto.
Qed.

(** ** What [dfs] does *)

Lemma deepest_app best evs evs' :
  deepest best (evs ++ evs') = deepest (deepest best evs) evs'.
Proof. apply fold_left_app. Qed.

Lemma deepest_ge best evs : best ≤ deepest best evs.
Proof.
  revert best. induction evs as [|p evs IH]; intros best; simpl; [lia|].
  destruct p; try apply IH. etrans; [|apply IH]. lia.
Qed.

(** The greatest count is at least every count, and is either the floor
    or the count of one of the entries. *)
Lemma deepest_spec best evs :
  (∀ stk v t n, DfsEnter stk v t n ∈ evs → n ≤ deepest best evs)
  ∧ (deepest best evs = best ∨ ∃ stk v t, DfsEnter stk v t (deepest best evs) ∈ evs).
Proof.
  revert best. induction evs as [|p evs IH]; intros best; simpl.
  { split; [|by left]. intros stk v t n Hin. by apply elem_of_nil in Hin. }
  destruct p as [stk0 v0 t0 n0| | | |].
  2-5: destruct (IH best) as [Hge Hex]; split;
    [intros stk v t n [[=]|Hin]%elem_of_cons; eauto
    |destruct Hex as [?|(stk & v & t & Hin)]; [by left|right];
     exists stk, v, t; by apply list_elem_of_further].
  destruct (IH (Z.max best n0)) as [Hge Hex]. split.
  - intros stk v t n [[= -> -> -> ->]|Hin]%elem_of_cons; [|by eapply Hge].
    pose proof (deepest_ge (Z.max best n0) evs). lia.
  - destruct Hex as [Heq|(stk & v & t & Hin)].
    + rewrite Heq. destruct (Z.max_spec best n0) as [[_ ->]|[_ ->]]; [|by left].
      right. exists stk0, v0, t0. apply list_elem_of_here.
    + right. exists stk, v, t. by apply list_elem_of_further.
Qed.

Lemma dfs_probe_ok_nested limit stack totalTime nextNode newTime p :
  newTime < limit →
  dfs_probe_ok limit (nextNode :: stack) newTime p →
  dfs_probe_ok limit stack totalTime p.
Proof.
  intros Hlt. destruct p as [stk v t n|stk v| | |]; simpl; try done.
  - intros (Hv & Hnd & Hsuf & Heq & Hne & Hn).
    assert (stk ≠ stack) as Hstk.
    { intros ->. apply suffix_length in Hsuf. simpl in Hsuf. lia. }
    repeat split; try done.
    + by eapply suffix_cons_l.
    + intros _. destruct (decide (stk = nextNode :: stack)) as [E|E]; [|by apply Hne].
      by rewrite (Heq E).
  - intros (Hv & Hnd & Hsuf). repeat split; try done. by eapply suffix_cons_l.
Qed.

Lemma dfs_returns limit fuel :
  ∀ stack current visited totalTime maxExperiencesCount experienceCount s,
    (size (targets (graph (self s)) ∖ visited) < fuel)%nat →
    visited = list_to_set stack → NoDup stack →
    experienceCount = Z.of_nat (length stack) →
    returns (dfs limit fuel stack current visited totalTime
                 maxExperiencesCount experienceCount) s
            (dfs_post limit stack visited totalTime maxExperiencesCount
                      (Z.max maxExperiencesCount experienceCount) s).
Proof.
  induction fuel as [|fuel IH];
    intros stack current visited totalTime m c s Hfuel Hvis Hnd Hc; [lia|].
  simpl. apply returns_bind, returns_probe, returns_bind, returns_get_self.
  apply returns_bind. simpl.
  set (s1 := with_probes s [DfsEnter stack visited totalTime c]).
  apply returns_mono
    with (Q := dfs_post limit stack visited totalTime (Z.max m c) (Z.max m c) s1).
  - apply returns_for_of.
    + intros neighbor [v cme] s2 Hin (Hv & Hfloor & evs & -> & Hevs & Hcme).
      simpl in Hv, Hfloor, Hcme. subst v. unfold dfs_edge.
      destruct (decide (node neighbor ∈ visited)) as [Hmem|Hmem].
      { apply returns_ret. repeat split; [done|]. by exists evs. }
      apply returns_bind. case_bool_decide as Hlt.
      * eapply returns_mono.
        { apply IH.
          - simpl. apply neighbors_of_targets in Hin.
            assert (targets (graph (self s)) ∖ (visited ∪ {[node neighbor]})
                    ⊂ targets (graph (self s)) ∖ visited) as Hsub by set_solver.
            apply subset_size in Hsub. lia.
          - subst visited. set_solver.
          - constructor; [|done]. subst visited. set_solver.
          - simpl. lia. }
        intros [v r] s3 (Hv & Hfloor' & evs' & -> & Hevs' & Hr).
        simpl in Hv, Hfloor', Hr. subst v.
        apply returns_ret. repeat split; simpl; [set_solver|lia|].
        exists (evs ++ evs'). split; [by rewrite with_probes_app|]. split.
        -- apply Forall_app. split; [done|].
           eapply Forall_impl; [done|]. intros p. by apply dfs_probe_ok_nested.
        -- rewrite deepest_app. by subst cme.
      * apply returns_ret, returns_ret. repeat split; simpl; [set_solver|done|].
        by exists evs.
    + repeat split; simpl; [lia|]. exists []. by rewrite with_probes_nil.
  - intros [v r] s2 (Hv & Hfloor & evs & -> & Hevs & Hr). simpl in Hv, Hfloor, Hr.
    subst v. apply returns_bind, returns_probe, returns_ret. repeat split; [done|].
    exists ([DfsEnter stack (list_to_set stack) totalTime c] ++ evs
            ++ [DfsLeave stack (list_to_set stack)]).
    repeat split.
    + subst s1 visited. by rewrite !with_probes_app.
    + subst visited. apply Forall_app. split; [|apply Forall_app; split; [done|]].
      * constructor; [|done]. simpl. repeat split; done.
      * constructor; [|done]. simpl. repeat split; done.
    + simpl. rewrite deepest_app. simpl. done.
Qed.

Lemma dfs_unfold limit fuel stack current visited totalTime m c s :
  dfs limit (S fuel) stack current visited totalTime m c s =
    match for_of (dfs_edge limit (dfs limit fuel) stack totalTime c)
                 (neighbors_of (self s) current) (visited, Z.max m c)
                 (with_probes s [DfsEnter stack visited totalTime c]) with
    | Some ((v, r), s') => Some ((v, r), with_probes s' [DfsLeave stack v])
    | None => None
    end.
Proof.
  simpl. unfold mbind, M_bind. simpl.
  fold (with_probes s [DfsEnter stack visited totalTime c]).
  destruct (for_of _ _ _ _) as [[[v r] s']|]; done.
Qed.

(** The depth bound is only a bound: an invocation that returns under
    one bound returns the same under every larger one. *)
Lemma dfs_more_fuel limit fuel :
  ∀ stack current visited totalTime m c s r,
    dfs limit fuel stack current visited totalTime m c s = Some r →
    dfs limit (S fuel) stack current visited totalTime m c s = Some r.
Proof.
  induction fuel as [|fuel IH]; intros stack current visited totalTime m c s r; [done|].
  rewrite (dfs_unfold limit (S fuel)), (dfs_unfold limit fuel).
  destruct (for_of (dfs_edge limit (dfs limit fuel) _ _ _) _ _ _) as [res|] eqn:Hloop;
    [|done].
  apply (for_of_mono _ (dfs_edge limit (dfs limit (S fuel)) stack totalTime c)) in Hloop.
  { by rewrite Hloop. }
  clear Hloop. intros neighbor [v cme] u res'. unfold dfs_edge.
  destruct (decide (node neighbor ∈ v)); [done|].
  case_bool_decide; [|done]. unfold mbind, M_bind.
  destruct (dfs limit fuel _ _ _ _ _ _ _) as [res''|] eqn:Hcall; [|done].
  by rewrite (IH _ _ _ _ _ _ _ _ Hcall).
Qed.

Lemma dfs_fuel_irrelevant limit fuel fuel' stack current visited totalTime m c s r :
  (fuel ≤ fuel')%nat →
  dfs limit fuel stack current visited totalTime m c s = Some r →
  dfs limit fuel' stack current visited totalTime m c s = Some r.
Proof.
  intros Hle Hrun. induction Hle as [|fuel' Hle IH]; [done|].
  by apply dfs_more_fuel.
Qed.

(** Two runs of [dfs] on the same object, the second with the larger
    limit and the larger running maximum, side by side. *)
Lemma dfs_monotone t1 t2 fuel :
  t1 ≤ t2 →
  ∀ stack current visited totalTime m1 m2 c s1 s2,
    self s1 = self s2 → m1 ≤ m2 →
    (size (targets (graph (self s1)) ∖ visited) < fuel)%nat →
    visited = list_to_set stack → NoDup stack → c = Z.of_nat (length stack) →
    ∃ r1 s1' r2 s2',
      dfs t1 fuel stack current visited totalTime m1 c s1 = Some ((visited, r1), s1')
      ∧ dfs t2 fuel stack current visited totalTime m2 c s2 = Some ((visited, r2), s2')
      ∧ self s1' = self s1 ∧ self s2' = self s2 ∧ r1 ≤ r2.
Proof.
  intros Ht. induction fuel as [|fuel IH];
    intros stack current visited totalTime m1 m2 c s1 s2 Hself Hm Hfuel Hvis Hnd Hlen;
    [lia|].
  rewrite !dfs_unfold, <- Hself.
  set (R := λ (a1 : gset string * Z) (u1 : Runtime) (a2 : gset string * Z) (u2 : Runtime),
              a1.1 = visited ∧ a2.1 = visited ∧ a1.2 ≤ a2.2
              ∧ self u1 = self s1 ∧ self u2 = self s1).
  destruct (for_of_related
              (dfs_edge t1 (dfs t1 fuel) stack totalTime c)
              (dfs_edge t2 (dfs t2 fuel) stack totalTime c) R
              (neighbors_of (self s1) current))
    with (a1 := (visited, Z.max m1 c)) (a2 := (visited, Z.max m2 c))
         (s1 := with_probes s1 [DfsEnter stack visited totalTime c])
         (s2 := with_probes s2 [DfsEnter stack visited totalTime c])
    as ([v1 r1] & u1 & [v2 r2] & u2 & -> & -> & HR); cycle 1.
  - repeat split; simpl; [lia|by rewrite Hself].
  - destruct HR as (Hv1 & Hv2 & Hr & Hu1 & Hu2). simpl in *. subst v1 v2.
    by exists r1, (with_probes u1 [DfsLeave stack visited]),
              r2, (with_probes u2 [DfsLeave stack visited]).
  - intros neighbor [v1 c1] u1 [v2 c2] u2 Hin (Hv1 & Hv2 & Hc & Hu1 & Hu2).
    simpl in Hv1, Hv2, Hc. subst v1 v2. unfold dfs_edge.
    destruct (decide (node neighbor ∈ visited)) as [Hmem|Hmem].
    { exists (visited, c1), u1, (visited, c2), u2. by repeat split. }
    assert ((size (targets (graph (self s1)) ∖ (visited ∪ {[node neighbor]})) < fuel)%nat)
      as Hfuel'.
    { apply neighbors_of_targets in Hin.
      assert (targets (graph (self s1)) ∖ (visited ∪ {[node neighbor]})
              ⊂ targets (graph (self s1)) ∖ visited) as Hsub by set_solver.
      apply subset_size in Hsub. lia. }
    assert (visited ∪ {[node neighbor]} = list_to_set (node neighbor :: stack)) as Hvis'.
    { subst visited. set_solver. }
    assert (NoDup (node neighbor :: stack)) as Hnd'.
    { constructor; [|done]. subst visited. set_solver. }
    assert (c + 1 = Z.of_nat (length (node neighbor :: stack))) as Hlen'
      by (simpl; lia).
    assert ((visited ∪ {[node neighbor]}) ∖ {[node neighbor]} = visited) as Hback
      by set_solver.
    unfold mbind, M_bind.
    set (newTime := totalTime + travelTime neighbor + resourceOrExperienceTime neighbor).
    destruct (decide (newTime < t1)) as [Hlt1|Hge1].
    + rewrite !bool_decide_eq_true_2 by lia.
      destruct (IH (node neighbor :: stack) (node neighbor) (visited ∪ {[node neighbor]})
                   newTime c1 c2 (c + 1) u1 u2)
        as (r1 & u1' & r2 & u2' & -> & -> & Hu1' & Hu2' & Hr); try done.
      { congruence. } { by rewrite Hu1. }
      simpl. rewrite Hback.
      exists (visited, r1), u1', (visited, r2), u2'. repeat split; simpl; congruence.
    + rewrite (bool_decide_eq_false_2 (newTime < t1)) by done. simpl.
      destruct (decide (newTime < t2)) as [Hlt2|Hge2].
      * rewrite bool_decide_eq_true_2 by done.
        destruct (dfs_returns t2 fuel (node neighbor :: stack) (node neighbor)
                    (visited ∪ {[node neighbor]}) newTime c2 (c + 1) u2)
          as ([v r2] & u2' & -> & Hv & Hr & evs & -> & _); try done.
        { by rewrite Hu2. }
        simpl in Hv, Hr. subst v. simpl. rewrite Hback.
        exists (visited, c1), u1, (visited, r2), (with_probes u2 evs).
        repeat split; simpl; [lia|done|done].
      * rewrite bool_decide_eq_false_2 by done. simpl. rewrite Hback.
        exists (visited, c1), u1, (visited, c2), u2. by repeat split.
Qed.

Lemma maxReachableCount_unfold limit start s :
  maxReachableCount limit start s =
    match dfs limit (dfs_depth (self s)) [start] start {[start]} 0 0 1 s with
    | Some ((_, r), s') => Some (r, s')
    | None => None
    end.
Proof.
  unfold maxReachableCount, mbind, M_bind, get_self.
  destruct (dfs _ _ _ _ _ _ _ _ _) as [[[v r] s']|]; done.
Qed.

(** [maxReachableCount] always returns; it changes nothing but the
    probes, its probes are those of a [dfs] started at [[start]], and the
    number returned is the greatest count carried by an entry to [dfs]. *)
Lemma maxReachableCount_returns limit start s :
  ∃ r evs,
    maxReachableCount limit start s = Some (r, with_probes s evs)
    ∧ 1 ≤ r
    ∧ Forall (dfs_probe_ok limit [start] 0) evs
    ∧ r = deepest 0 evs.
Proof.
  destruct (dfs_returns limit (dfs_depth (self s)) [start] start {[start]} 0 0 1 s)
    as ([v r] & s' & Hrun & Hv & Hfloor & evs & -> & Hevs & Hr).
  - unfold dfs_depth.
    assert (size (targets (graph (self s)) ∖ {[start]}) ≤ size (targets (graph (self s))))%nat
      by (apply subseteq_size; set_solver).
    lia.
  - set_solver.
  - apply NoDup_singleton.
  - done.
  - exists r, evs. rewrite maxReachableCount_unfold, Hrun. simpl in Hfloor.
    repeat split; [lia|done|done].
Qed.

(** ** What [distributeResource] does *)

Lemma planted_app evs evs' : planted (evs ++ evs') = planted evs ++ planted evs'.
Proof. apply omap_app. Qed.

Lemma dist_probe_ok_nested base stack nextIsland p :
  dist_probe_ok base (nextIsland :: stack) p → dist_probe_ok base stack p.
Proof.
  destruct p as [| |stk c|x|stk c]; simpl; try done.
  - intros [Hsuf Hc]. split; [by eapply suffix_cons_l|done].
  - intros [Hsuf Hc]. split; [by eapply suffix_cons_l|done].
Qed.

Lemma with_distribution_eq o clk n out ps s d evs :
  o = set_resourcesDistributed d (self s) → clk = clock s → n = reads s →
  out = console s → ps = probes s ++ evs →
  mkRuntime o clk n out ps = with_distribution s d evs.
Proof. by intros -> -> -> -> ->. Qed.

Lemma distributeResource_returns (U : gset string) fuel :
  ∀ stack current totalTime resourceCount s,
    targets (graph (self s)) ⊆ U → current ∈ U →
    (size (U ∖ resourcesDistributed (self s)) < fuel)%nat →
    returns (distributeResource fuel stack current totalTime resourceCount) s
            (dist_post stack resourceCount s).
Proof.
  induction fuel as [|fuel IH];
    intros stack current totalTime rc s HU Hcur Hfuel; [lia|].
  set (D := resourcesDistributed (self s)) in *.
  set (c0 := canoesAvailable (self s)).
  simpl. apply returns_bind, returns_get_self, returns_bind, returns_probe.
  fold D c0. destruct (decide (current ∈ D)) as [Hmem|Hmem].
  { apply returns_bind, returns_probe, returns_ret.
    exists [DistEnter stack c0; DistLeave stack c0]. simpl.
    repeat split.
    - rewrite with_probes_app. destruct s as [[g p v c d] clk n out ps].
      unfold with_probes, with_distribution, set_resourcesDistributed, D. simpl.
      by rewrite union_empty_r_L.
    - constructor.
    - intros x Hx. by apply elem_of_nil in Hx.
    - lia.
    - repeat constructor; done. }
  apply returns_bind. eapply returns_eq; [reflexivity|].
  apply returns_bind, returns_probe, returns_bind, returns_get_self.
  apply returns_bind. simpl.
  set (I := λ (r : Z) (u : Runtime), ∃ evs,
         u = with_distribution s (D ∪ list_to_set (planted evs)) evs
         ∧ NoDup (planted evs) ∧ (∀ x, x ∈ planted evs → x ∉ D)
         ∧ current ∈ planted evs
         ∧ r = rc + Z.of_nat (length (planted evs))
         ∧ Forall (dist_probe_ok (c0 + Z.of_nat (length stack)) stack) evs).
  apply returns_mono with (Q := I).
  - apply returns_for_of.
    + intros neighbor r u Hin (evs & -> & Hnd & Hfresh & Hplanted & -> & Hok).
      unfold distribute_edge. apply returns_bind, returns_get_self. simpl. fold c0.
      destruct (bool_decide (0 < c0) && bool_decide (_ < 100)); [|apply returns_ret; by exists evs].
      apply returns_bind. eapply returns_eq; [reflexivity|].
      apply returns_bind. simpl. fold c0. eapply returns_mono.
      { apply IH; simpl.
        - done.
        - apply HU. eapply neighbors_of_targets. exact Hin.
        - fold D.
          assert (U ∖ (D ∪ list_to_set (planted evs)) ⊂ U ∖ D) as Hsub.
          { assert (current ∈ (list_to_set (planted evs) : gset string))
              by (by apply elem_of_list_to_set).
            set_solver. }
          apply subset_size in Hsub. lia. }
      intros r' u' (evs' & -> & Hnd' & Hfresh' & -> & Hok'). simpl in *.
      apply returns_bind. eapply returns_eq; [reflexivity|].
      apply returns_ret. exists (evs ++ evs'). rewrite planted_app. repeat split.
      * unfold with_distribution. simpl. f_equal.
        -- unfold set_canoesAvailable, set_resourcesDistributed. simpl. f_equal; [lia|].
           rewrite list_to_set_app_L. set_solver.
        -- by rewrite app_assoc.
      * apply NoDup_app. repeat split; [done| |done].
        intros x Hx Hx'. apply (Hfresh' x Hx'). set_solver.
      * intros x [Hx|Hx]%elem_of_app; [by apply Hfresh|].
        specialize (Hfresh' x Hx). set_solver.
      * set_solver.
      * rewrite length_app. lia.
      * apply Forall_app. split; [done|].
        eapply Forall_impl; [exact Hok'|]. intros p Hp.
        apply (dist_probe_ok_nested _ _ (node neighbor)).
        revert Hp. simpl. replace (c0 + -1 + Z.of_nat (S (length stack)))
          with (c0 + Z.of_nat (length stack)) by lia. done.
    + exists [DistEnter stack c0; Plant current]. simpl. repeat split.
      * apply with_distribution_eq; simpl; try done.
        -- unfold set_resourcesDistributed. simpl. f_equal. fold D. set_solver.
        -- by rewrite <- app_assoc.
      * apply NoDup_singleton.
      * by intros x ->%list_elem_of_singleton.
      * set_solver.
      * repeat constructor; done.
  - intros r u (evs & -> & Hnd & Hfresh & Hplanted & -> & Hok).
    apply returns_bind, returns_get_self, returns_bind, returns_probe, returns_ret.
    exists (evs ++ [DistLeave stack c0]). rewrite planted_app. simpl.
    rewrite !app_nil_r. repeat split; try done.
    + unfold with_probes, with_distribution. simpl. by rewrite app_assoc.
    + apply Forall_app. split; [done|]. repeat constructor; done.
Qed.

Lemma distributeResource_unfold fuel stack current totalTime resourceCount s :
  distributeResource (S fuel) stack current totalTime resourceCount s =
    let c := canoesAvailable (self s) in
    if decide (current ∈ resourcesDistributed (self s))
    then Some (resourceCount, with_probes s [DistEnter stack c; DistLeave stack c])
    else
      let s' := with_distribution s (resourcesDistributed (self s) ∪ {[current]})
                                  [DistEnter stack c; Plant current] in
      match for_of (distribute_edge (distributeResource fuel) stack totalTime)
                   (neighbors_of (self s') current) (resourceCount + 1) s' with
      | Some (r, s'') =>
          Some (r, with_probes s'' [DistLeave stack (canoesAvailable (self s''))])
      | None => None
      end.
Proof.
  simpl. unfold mbind, M_bind. simpl.
  destruct (decide (current ∈ resourcesDistributed (self s))).
  - unfold with_probes. simpl. by rewrite <- app_assoc.
  - simpl. unfold with_distribution. simpl. rewrite <- app_assoc. simpl.
    destruct (for_of _ _ _ _) as [[r s'']|]; done.
Qed.

(** The depth bound is only a bound here too. *)
Lemma distributeResource_more_fuel fuel :
  ∀ stack current totalTime resourceCount s r,
    distributeResource fuel stack current totalTime resourceCount s = Some r →
    distributeResource (S fuel) stack current totalTime resourceCount s = Some r.
Proof.
  induction fuel as [|fuel IH]; intros stack current totalTime rc s r; [done|].
  rewrite (distributeResource_unfold (S fuel)), (distributeResource_unfold fuel).
  cbv zeta. destruct (decide (current ∈ resourcesDistributed (self s))); [done|].
  destruct (for_of (distribute_edge (distributeResource fuel) _ _) _ _ _)
    as [res|] eqn:Hloop; [|done].
  apply (for_of_mono _ (distribute_edge (distributeResource (S fuel)) stack totalTime))
    in Hloop.
  { by rewrite Hloop. }
  clear Hloop. intros neighbor acc u res'.
  unfold distribute_edge, add_canoes, modify_self, mbind, M_bind, get_self, put_self.
  cbv beta iota. destruct (_ && _); [|done].
  destruct (distributeResource fuel _ _ _ _ _) as [res''|] eqn:Hcall; [|done].
  by rewrite (IH _ _ _ _ _ _ Hcall).
Qed.

Lemma distributeFrom_returns start s :
  ∃ r evs,
    distributeFrom start s
      = Some (r, with_distribution s (list_to_set (planted evs)) evs)
    ∧ NoDup (planted evs) ∧ r = Z.of_nat (length (planted evs))
    ∧ Forall (dist_probe_ok (canoesAvailable (self s) + 1) [start]) evs.
Proof.
  set (s0 := mkRuntime (set_resourcesDistributed ∅ (self s)) (clock s) (reads s)
                       (console s) (probes s)).
  destruct (distributeResource_returns (targets (graph (self s)) ∪ {[start]})
              (distribute_depth (self s)) [start] start 0 0 s0)
    as (r & s' & Hrun & evs & -> & Hnd & _ & -> & Hok).
  - set_solver.
  - set_solver.
  - simpl. unfold distribute_depth.
    assert (size ({[start]} ∖ targets (graph (self s)) : gset string)
            ≤ size ({[start]} : gset string))%nat as Hle
      by (apply subseteq_size; set_solver).
    rewrite size_singleton in Hle.
    rewrite difference_empty_L, size_union_alt. lia.
  - exists (0 + Z.of_nat (length (planted evs))), evs. repeat split; try done.
    unfold distributeFrom, mbind, M_bind, modify_self, mbind, M_bind, get_self, put_self.
    fold s0. change (distribute_depth (self s0)) with (distribute_depth (self s)).
    rewrite Hrun. f_equal. f_equal. unfold with_distribution. simpl.
    unfold set_resourcesDistributed. simpl. f_equal. f_equal. set_solver.
Qed.

(** ** What the broadcast loop does on a cycle of two islands *)

(** A loop keeps an invariant [K] that may mention the elements handled so
    far (partial correctness). *)
Lemma for_of_prefix {A B} (body : A → B → M B) (K : list A → B → Runtime → Prop) :
  (∀ pre x acc s acc' s',
     K pre acc s → body x acc s = Some (acc', s') → K (pre ++ [x]) acc' s') →
  ∀ l pre acc s acc' s',
    K pre acc s → for_of body l acc s = Some (acc', s') → K (pre ++ l) acc' s'.
Proof.
  intros Hbody. induction l as [|x l IH]; intros pre acc s acc' s' HK Hrun; simpl in Hrun.
  - injection Hrun as <- <-. by rewrite app_nil_r.
  - unfold mbind, M_bind in Hrun.
    destruct (body x acc s) as [[acc1 s1]|] eqn:Hx; [|done].
    replace (pre ++ x :: l) with ((pre ++ [x]) ++ l) by (by rewrite <- app_assoc).
    eapply IH; [|exact Hrun]. by eapply Hbody.
Qed.

Lemma ticking_le clk i j : ticking clk → (i ≤ j)%nat → clk i ≤ clk j.
Proof.
  intros Hclk Hij. induction Hij as [|j Hij IH]; [lia|].
  specialize (Hclk j). lia.
Qed.

Lemma stamped_later u u' island :
  ticking (clock u) → lastVisit (self u') = lastVisit (self u) →
  clock u' = clock u → (reads u ≤ reads u')%nat →
  stamped u island → stamped u' island.
Proof.
  intros Hclk Hlv Hc Hr (t & Ht & Hlt). exists t. rewrite Hlv, Hc. split; [done|].
  pose proof (ticking_le _ _ _ Hclk Hr). lia.
Qed.

(** One edge of the broadcast, at interval [0]: either the target is
    queued, or it was already seen and its timestamp is not older than
    the clock. *)
Lemma shareKnowledge_edge_Some neighbor v q u v' q' u' :
  shareKnowledge_edge 0 neighbor (v, q) u = Some ((v', q'), u') →
  graph (self u') = graph (self u) ∧ lastVisit (self u') = lastVisit (self u)
  ∧ clock u' = clock u ∧ (reads u ≤ reads u')%nat
  ∧ ((v' = v ∪ {[node neighbor]} ∧ q' = q ++ [node neighbor])
     ∨ (v' = v ∧ q' = q ∧ node neighbor ∈ v ∧ ¬ stamped u (node neighbor))).
Proof.
  unfold shareKnowledge_edge, mbind, M_bind.
  destruct (decide (node neighbor ∈ v)) as [Hmem|Hmem]; simpl.
  - destruct (num_gtb _ _) eqn:Hgt; simpl; intros [= <- <- <-]; simpl.
    + repeat split; try done; [lia|by left].
    + repeat split; try done; [lia|]. right. repeat split; try done.
      intros (t & Ht & Hlt). rewrite Ht in Hgt. simpl in Hgt.
      destruct (t =? 0) eqn:Hz; simpl in Hgt;
        apply bool_decide_eq_false in Hgt; lia.
  - intros [= <- <- <-]. simpl. repeat split; try done. by left.
Qed.

(** One iteration of the [while] loop on a non-empty island name. *)
Lemma shareKnowledge_loop_step steps visitInterval visited z rest u :
  z ≠ "" →
  shareKnowledge_loop (S steps) visitInterval visited (z :: rest) u =
    let o' := set_lastVisit (<[z := Fin (clock u (reads u))]> (lastVisit (self u)))
                            (self u) in
    let u1 := mkRuntime o' (clock u) (S (reads u))
                (console u ++ [Visited z (populations o' !! z) (lastVisit o' !! z)])
                (probes u) in
    match for_of (shareKnowledge_edge visitInterval) (neighbors_of o' z)
                 (visited, rest) u1 with
    | Some ((v', q'), w) => shareKnowledge_loop steps visitInterval v' q' w
    | None => None
    end.
Proof.
  intros Hz. simpl. destruct (decide (z = "")) as [|_]; [done|].
  unfold mbind, M_bind. simpl.
  destruct (for_of _ _ _ _) as [[[v' q'] w]|]; done.
Qed.

(** While the cycle is alive the loop cannot return, however many steps
    it is given. *)
Lemma cycle_alive_never_returns o clk a b :
  a ≠ "" → b ≠ "" → has_edge o a b → has_edge o b a → ticking clk →
  ∀ steps u visited queue,
    cycle_alive o clk a b u visited queue →
    shareKnowledge_loop steps 0 visited queue u = None.
Proof.
  intros Ha Hb (nab & Hab & Hnab) (nba & Hba & Hnba) Hclk.
  induction steps as [|steps IH]; intros u visited queue (Hg & Hc & Hq & Hseen).
  - destruct queue as [|z rest]; [|done].
    destruct Hq as [Hq|Hq]; by apply elem_of_nil in Hq.
  - destruct queue as [|z rest].
    { destruct Hq as [Hq|Hq]; by apply elem_of_nil in Hq. }
    destruct (decide (z = "")) as [Hz|Hz].
    { simpl. rewrite decide_True by done. apply IH. repeat split; try done.
      - destruct Hq as [Hq|Hq]; apply elem_of_cons in Hq as [->|Hq]; try done; eauto.
      - intros y Hy Hv. destruct (Hseen y Hy Hv) as [Hin|Hst]; [|by right].
        apply elem_of_cons in Hin as [->|Hin]; [|by left].
        destruct Hy; congruence. }
    rewrite shareKnowledge_loop_step by done. simpl.
    set (u1 := mkRuntime _ _ _ _ _).
    assert (stamped u1 z) as Hstz.
    { exists (clock u (reads u)). simpl. rewrite lookup_insert_eq. split; [done|].
      rewrite Hc. apply Hclk. }
    assert (∀ y, stamped u y → stamped u1 y) as Hkeep.
    { intros y Hy. destruct (decide (y = z)) as [->|Hne]; [done|].
      destruct Hy as (t & Ht & Hlt). exists t. simpl.
      rewrite lookup_insert_ne by done. split; [done|].
      rewrite Hc in *. specialize (Hclk (reads u)). lia. }
    set (K := λ (pre : list Neighbor) (acc : gset string * list string) (w : Runtime),
           graph (self w) = graph o ∧ clock w = clk
           ∧ lastVisit (self w) = lastVisit (self u1) ∧ (reads u1 ≤ reads w)%nat
           ∧ (∀ y, y ∈ rest → y ∈ acc.2)
           ∧ (∀ y, y = a ∨ y = b → y ∈ acc.1 → y ∈ acc.2 ∨ stamped w y)
           ∧ (∀ n, n ∈ pre → node n = a ∨ node n = b → node n ∈ acc.2)).
    destruct (for_of _ _ _ _) as [[[v' q'] w]|] eqn:Hloop; [|done].
    apply (for_of_prefix _ K) with (pre := []) in Hloop.
    + destruct Hloop as (Hg' & Hc' & Hlv' & Hr' & Hrest & Hseen' & Hpre).
      simpl in *. apply IH. repeat split; try done.
      destruct (decide (z = a)) as [->|Hza].
      { right. rewrite <- Hnab. apply Hpre; [|right; done].
        unfold neighbors_of, set_lastVisit in *. simpl. by rewrite Hg. }
      destruct (decide (z = b)) as [->|Hzb].
      { left. rewrite <- Hnba. apply Hpre; [|left; done].
        unfold neighbors_of, set_lastVisit in *. simpl. by rewrite Hg. }
      destruct Hq as [Hq|Hq]; apply elem_of_cons in Hq as [->|Hq]; try done.
      * left. by apply Hrest.
      * right. by apply Hrest.
    + clear Hloop. intros pre n [v1 q1] w1 [v2 q2] w2
        (Hg1 & Hc1 & Hlv1 & Hr1 & Hrest & Hseen1 & Hpre) Hedge.
      apply shareKnowledge_edge_Some in Hedge
        as (Hg2 & Hlv2 & Hc2 & Hr2 & [[-> ->]|(-> & -> & Hin & Hnot)]); simpl in *.
      * repeat split; simpl; try congruence; try lia.
        -- intros y Hy. apply elem_of_app. left. by apply Hrest.
        -- intros y Hy [Hv | ->%elem_of_singleton]%elem_of_union.
           ++ destruct (Hseen1 y Hy Hv) as [Hin|Hst].
              ** left. apply elem_of_app. by left.
              ** right. eapply stamped_later; [| | | |exact Hst]; [by rewrite Hc1|..]; done.
           ++ left. apply elem_of_app. right. by apply list_elem_of_singleton.
        -- intros m [Hm | ->%list_elem_of_singleton]%elem_of_app Hy.
           ++ apply elem_of_app. left. by apply Hpre.
           ++ apply elem_of_app. right. by apply list_elem_of_singleton.
      * repeat split; simpl; try congruence; try lia; try done.
        -- intros y Hy Hv. destruct (Hseen1 y Hy Hv) as [Hin'|Hst]; [by left|].
           right. eapply stamped_later; [| | | |exact Hst]; [by rewrite Hc1|..]; done.
        -- intros m [Hm | ->%list_elem_of_singleton]%elem_of_app Hy; [by apply Hpre|].
           destruct (Hseen1 (node n) Hy Hin) as [Hin'|Hst]; [done|]. by destruct Hnot.
    + simpl. repeat split; try done.
      * intros y Hy Hv. destruct (Hseen y Hy Hv) as [Hin|Hst].
        -- apply elem_of_cons in Hin as [->|Hin]; [by right|by left].
        -- right. by apply Hkeep.
      * intros n Hn. by apply elem_of_nil in Hn.
Qed.

(** ** The program's demonstration *)

(** What the three calls at the end of the source file compute, each
    started from the registered graph. *)
Lemma demo_runs :
  fst <$> findMaxExperiences "experience1" demo = Some 3
  ∧ fst <$> distributeFrom "experience1" demo = Some 5
  ∧ (console <$> (snd <$> shareKnowledge 5 "experience1" 10000 demo))
    = Some [Starting "experience1";
            Visited "experience1" (Some 1000) (Some (Fin 1700000000000));
            Queueing "experience2" 10; Queueing "experience3" 15;
            Visited "experience2" (Some 800) (Some (Fin 1700000000001));
            Queueing "experience4" 20;
            Visited "experience3" (Some 500) (Some (Fin 1700000000002));
            Queueing "experience5" 10;
            Visited "experience4" (Some 1200) (Some (Fin 1700000000003));
            Visited "experience5" None (Some (Fin 1700000000004))].
Proof. repeat split; vm_compute; reflexivity. Qed.

(** ** The claims *)

(** C1: on the graph A→B (cost 15), A→C (cost 23), B→D (cost 32), with
    the limit 100 and start A, [findMaxExperiences] returns exactly 3. *)
Theorem C1_scenario_returns_three :
  fst <$> findMaxExperiences "A" scenario = Some 3.
Proof. vm_compute. reflexivity. Qed.

(** C2: for every object, start island and limits [t1 ≤ t2], the
    enumerator returns at both limits, and its result at [t2] is at least
    its result at [t1]. *)
Theorem C2_limit_monotone (s : Runtime) (start : string) (t1 t2 : Z) :
  t1 ≤ t2 →
  ∃ r1 r2,
    fst <$> maxReachableCount t1 start s = Some r1
    ∧ fst <$> maxReachableCount t2 start s = Some r2
    ∧ r1 ≤ r2.
Proof.
  intros Ht.
  destruct (dfs_monotone t1 t2 (dfs_depth (self s)) Ht [start] start {[start]}
              0 0 0 1 s s) as (r1 & s1 & r2 & s2 & H1 & H2 & _ & _ & Hr);
    try done.
  - unfold dfs_depth.
    assert (size (targets (graph (self s)) ∖ {[start]}) ≤ size (targets (graph (self s))))%nat
      by (apply subseteq_size; set_solver).
    lia.
  - set_solver.
  - apply NoDup_singleton.
  - exists r1, r2. rewrite !maxReachableCount_unfold, H1, H2. done.
Qed.

Lemma C2_limit_monotone_witness :
  40 ≤ 100
  ∧ ∃ r1 r2,
      fst <$> maxReachableCount 40 "A" scenario = Some r1
      ∧ fst <$> maxReachableCount 100 "A" scenario = Some r2
      ∧ r1 ≤ r2.
Proof. split; [lia|]. apply (C2_limit_monotone scenario "A" 40 100). lia. Defined.




(** The same edge at cost 100 and at cost 99, run whole. *)
Lemma exact_budget_is_rejected :
  fst <$> findMaxExperiences "A" exact_budget = Some 1
  ∧ fst <$> findMaxExperiences "A" under_budget = Some 2.
Proof. split; vm_compute; reflexivity. Qed.

(** C4: observed at every entry to [dfs] and at every return from it, the
    visited set is exactly the set of islands on the recursion stack, the
    stack holds no island twice, its bottom is the start island, and the
    count carried by the invocation is the height of the stack; the set
    seen at the return of an invocation is therefore the set seen at its
    entry.  The number returned is the greatest of these counts, so it is
    the number of islands of a path that visits no island twice. *)
Theorem C4_visited_is_the_stack (limit : Z) (start : string) (s : Runtime) :
  ∃ r evs,
    maxReachableCount limit start s = Some (r, with_probes s evs)
    ∧ (∀ stk v t n, DfsEnter stk v t n ∈ evs →
         v = list_to_set stk ∧ NoDup stk ∧ last stk = Some start
         ∧ n = Z.of_nat (length stk) ∧ n ≤ r)
    ∧ (∀ stk v, DfsLeave stk v ∈ evs →
         v = list_to_set stk ∧ NoDup stk ∧ last stk = Some start)
    ∧ (∃ stk v t, DfsEnter stk v t r ∈ evs).
Proof.
  destruct (maxReachableCount_returns limit start s)
    as (r & evs & Hrun & Hone & Hok & Hr).
  exists r, evs. split; [done|]. rewrite Forall_forall in Hok.
  assert (∀ stk : list string, [start] `suffix_of` stk → last stk = Some start) as Hlast.
  { intros stk [pre ->]. by rewrite last_snoc. }
  destruct (deepest_spec 0 evs) as [Hge Hex]. rewrite <- Hr in Hge, Hex.
  split; [|split].
  - intros stk v t n Hin. destruct (Hok _ Hin) as (Hv & Hnd & Hsuf & _ & _ & Hn).
    repeat split; [done|done|by apply Hlast|done|by eapply Hge].
  - intros stk v Hin. destruct (Hok _ Hin) as (Hv & Hnd & Hsuf).
    repeat split; [done|done|by apply Hlast].
  - destruct Hex as [Hzero|Hex]; [lia|done].
Qed.

Lemma C4_visited_is_the_stack_witness :
  ∃ r evs,
    maxReachableCount 100 "A" scenario = Some (r, with_probes scenario evs)
    ∧ (∀ stk v t n, DfsEnter stk v t n ∈ evs →
         v = list_to_set stk ∧ NoDup stk ∧ last stk = Some "A"
         ∧ n = Z.of_nat (length stk) ∧ n ≤ r)
    ∧ (∀ stk v, DfsLeave stk v ∈ evs →
         v = list_to_set stk ∧ NoDup stk ∧ last stk = Some "A")
    ∧ (∃ stk v t, DfsEnter stk v t r ∈ evs).
Proof. exact (C4_visited_is_the_stack 100 "A" scenario). Defined.

(** [calculatePriority] on an island whose [lastVisit] is [-Infinity]. *)
Lemma calculatePriority_never_visited s island p :
  populations (self s) !! island = Some p →
  lastVisit (self s) !! island = Some NegInfinity →
  fst <$> calculatePriority island s = Some (scale_infinity true p).
Proof.
  intros Hp Hv. unfold calculatePriority, mbind, M_bind, get_self, Date_now, mret, M_ret.
  simpl. by rewrite Hp, Hv.
Qed.

(** C5, counterexample: for a registered, never visited island with
    population 0 the scorer yields [NaN], which is not a maximal
    priority. *)
Lemma C5_zero_population_is_NaN :
  populations (self (lone_island 0)) !! "X" = Some 0
  ∧ lastVisit (self (lone_island 0)) !! "X" = Some NegInfinity
  ∧ fst <$> calculatePriority "X" (lone_island 0) = Some NaN
  ∧ ¬ maximal NaN.
Proof.
  repeat split; try (vm_compute; reflexivity).
  intros [HNaN _]. discriminate HNaN.
Qed.

(** C5, amended: for every registered island that has never been visited
    and whose population is strictly positive, the scorer yields
    [+Infinity], which is maximal and is not [NaN]. *)
Theorem C5_priority_of_never_visited (s : Runtime) (island : string) (p : Z) :
  populations (self s) !! island = Some p →
  lastVisit (self s) !! island = Some NegInfinity →
  0 < p →
  fst <$> calculatePriority island s = Some PosInfinity ∧ maximal PosInfinity.
Proof.
  intros Hp Hv Hpos. split.
  - rewrite (calculatePriority_never_visited s island p Hp Hv).
    unfold scale_infinity. by destruct (Z.compare_spec p 0); try lia.
  - split; [done|]. by intros [].
Qed.

Lemma C5_priority_of_never_visited_witness :
  populations (self (lone_island 500)) !! "X" = Some 500
  ∧ lastVisit (self (lone_island 500)) !! "X" = Some NegInfinity
  ∧ 0 < 500
  ∧ fst <$> calculatePriority "X" (lone_island 500) = Some PosInfinity
  ∧ maximal PosInfinity.
Proof.
  assert (populations (self (lone_island 500)) !! "X" = Some 500) as Hp
    by (vm_compute; reflexivity).
  assert (lastVisit (self (lone_island 500)) !! "X" = Some NegInfinity) as Hv
    by (vm_compute; reflexivity).
  assert (0 < 500) as Hpos by lia.
  split; [exact Hp|]. split; [exact Hv|]. split; [exact Hpos|].
  exact (C5_priority_of_never_visited (lone_island 500) "X" 500 Hp Hv Hpos).
Defined.

(** C6: on a graph with an edge from [a] to [b] and one back, with
    interval 0 and a clock that advances between any two reads,
    [shareKnowledge] started at [a] does not return: whatever bound is put
    on the number of iterations of its loop, the bound is hit. *)
Theorem C6_broadcast_on_a_cycle_never_returns (s : Runtime) (a b : string) :
  a ≠ "" → b ≠ "" →
  has_edge (self s) a b → has_edge (self s) b a →
  ticking (clock s) →
  ∀ steps, shareKnowledge steps a 0 s = None.
Proof.
  intros Ha Hb Hab Hba Hclk steps. unfold shareKnowledge, mbind, M_bind, console_log.
  apply (cycle_alive_never_returns (self s) (clock s) a b); try done.
  repeat split; simpl; try done.
  - left. by apply list_elem_of_singleton.
  - intros y _ ->%elem_of_singleton. left. by apply list_elem_of_singleton.
Qed.

Lemma C6_broadcast_on_a_cycle_never_returns_witness :
  ("A" ≠ "") ∧ ("B" ≠ "")
  ∧ has_edge (self (two_cycle running_clock)) "A" "B"
  ∧ has_edge (self (two_cycle running_clock)) "B" "A"
  ∧ ticking (clock (two_cycle running_clock))
  ∧ shareKnowledge 1000 "A" 0 (two_cycle running_clock) = None.
Proof.
  assert ("A" ≠ "") as Ha by discriminate.
  assert ("B" ≠ "") as Hb by discriminate.
  assert (has_edge (self (two_cycle running_clock)) "A" "B") as Hab.
  { exists (mkNeighbor "B" 10 5). split; [|reflexivity].
    vm_compute. apply list_elem_of_here. }
  assert (has_edge (self (two_cycle running_clock)) "B" "A") as Hba.
  { exists (mkNeighbor "A" 10 5). split; [|reflexivity].
    vm_compute. apply list_elem_of_here. }
  assert (ticking (clock (two_cycle running_clock))) as Hclk.
  { intros n. simpl. unfold running_clock. lia. }
  repeat (split; [assumption|]).
  exact (C6_broadcast_on_a_cycle_never_returns (two_cycle running_clock) "A" "B"
           Ha Hb Hab Hba Hclk 1000%nat).
Defined.

(** With a clock that stands still the same call returns after two
    iterations. *)
Lemma broadcast_with_frozen_clock_returns :
  fst <$> shareKnowledge 2 "A" 0 (two_cycle frozen_clock) = Some ().
Proof. vm_compute. reflexivity. Qed.




(** D is reachable through B and through C, and is counted once. *)
Lemma diamond_counts_four :
  fst <$> distributeFrom "A" diamond = Some 4
  ∧ planted <$> (probes <$> (snd <$> distributeFrom "A" diamond))
    = Some ["A"; "B"; "D"; "C"].
Proof. split; vm_compute; reflexivity. Qed.

(** With no canoe every edge is skipped. *)
Lemma for_of_skipped {A B} (body : A → B → M B) l acc s :
  (∀ x, x ∈ l → body x acc s = Some (acc, s)) →
  for_of body l acc s = Some (acc, s).
Proof.
  induction l as [|x l IH]; intros Hbody; simpl; [done|].
  unfold mbind, M_bind. rewrite Hbody by apply list_elem_of_here.
  apply IH. intros y Hy. apply Hbody. by apply list_elem_of_further.
Qed.

(** C9: with an empty pool, [distributeFrom] returns 1 whatever the graph
    and the start island: the start island is planted on entry, and no
    edge is descended. *)
Theorem C9_empty_pool_plants_the_start (s : Runtime) (start : string) :
  canoesAvailable (self s) = 0 →
  ∃ s',
    distributeFrom start s = Some (1, s')
    ∧ probes s' = probes s ++ [DistEnter [start] 0; Plant start; DistLeave [start] 0]
    ∧ resourcesDistributed (self s') = {[start]}.
Proof.
  intros Hc. unfold distributeFrom, distribute_depth.
  unfold mbind at 1 2, M_bind at 1 2, modify_self, mbind at 1, M_bind at 1.
  unfold get_self at 1 2, put_self. cbv beta iota. simpl distributeResource.
  unfold mbind at 1 2, M_bind at 1 2, get_self at 1, probe at 1. cbv beta iota.
  simpl self. simpl resourcesDistributed. rewrite decide_False by set_solver.
  unfold mbind at 1 2 3 4, M_bind at 1 2 3 4, modify_self, mbind at 1, M_bind at 1.
  unfold get_self at 1 2, put_self, probe at 1. cbv beta iota.
  rewrite for_of_skipped.
  - unfold mbind, M_bind, get_self, probe, mret, M_ret. simpl. rewrite Hc.
    eexists. split; [reflexivity|]. simpl. split.
    + by rewrite <- !app_assoc.
    + set_solver.
  - intros x _. unfold distribute_edge, mbind, M_bind, get_self. simpl. rewrite Hc. done.
Qed.

Lemma C9_empty_pool_plants_the_start_witness :
  canoesAvailable (self scenario_without_canoes) = 0
  ∧ ∃ s',
      distributeFrom "A" scenario_without_canoes = Some (1, s')
      ∧ probes s' = probes scenario_without_canoes
                    ++ [DistEnter ["A"] 0; Plant "A"; DistLeave ["A"] 0]
      ∧ resourcesDistributed (self s') = {["A"]}.
Proof.
  split; [reflexivity|].
  exact (C9_empty_pool_plants_the_start scenario_without_canoes "A" eq_refl).
Defined.

(** C10: [findMaxExperiences] always returns, and when it has returned
    the graph, the populations and the last-visit times are what they
    were; so are the other fields of the object, the clock and the
    console. *)
Theorem C10_findMaxExperiences_reads_only (s : Runtime) (start : string) :
  ∃ r s',
    findMaxExperiences start s = Some (r, s')
    ∧ graph (self s') = graph (self s)
    ∧ populations (self s') = populations (self s)
    ∧ lastVisit (self s') = lastVisit (self s)
    ∧ self s' = self s
    ∧ reads s' = reads s
    ∧ console s' = console s.
Proof.
  destruct (maxReachableCount_returns time_limit start s) as (r & evs & Hrun & _).
  exists r, (with_probes s evs). by repeat split.
Qed.

(** ** Further properties: the enumerator *)

(** A loop whose body always returns and extends an invariant [K] over
    the elements handled so far returns and establishes [K] of the whole
    list. *)
Lemma returns_for_of_prefix {A B} (body : A → B → M B)
    (K : list A → B → Runtime → Prop) l :
  (∀ pre x acc s, x ∈ l → K pre acc s → returns (body x acc) s (K (pre ++ [x]))) →
  ∀ pre acc s, K pre acc s → returns (for_of body l acc) s (K (pre ++ l)).
Proof.
  induction l as [|x l IH]; intros Hbody pre acc s HK; simpl.
  - apply returns_ret. by rewrite app_nil_r.
  - apply returns_bind. apply returns_mono with (Q := K (pre ++ [x])).
    + apply Hbody; [apply list_elem_of_here|done].
    + intros acc' s' HK'.
      replace (pre ++ x :: l) with ((pre ++ [x]) ++ l) by (by rewrite <- app_assoc).
      apply IH; [|done]. intros pre' y acc0 s0 Hy. apply Hbody.
      by apply list_elem_of_further.
Qed.

(** [dfs] returns the running maximum it was given, raised to the number
    of islands of the longest admissible path from [current]. *)
Lemma dfs_optimal limit fuel :
  ∀ stack current visited totalTime m c s,
    (size (targets (graph (self s)) ∖ visited) < fuel)%nat →
    returns (dfs limit fuel stack current visited totalTime m c) s
      (λ res s',
         res.1 = visited ∧ self s' = self s ∧ m ≤ res.2
         ∧ (∀ p, admissible (self s) limit visited current totalTime p →
                 c + Z.of_nat (length p) ≤ res.2)
         ∧ (res.2 = m
            ∨ ∃ p, admissible (self s) limit visited current totalTime p
                   ∧ res.2 = c + Z.of_nat (length p))).
Proof.
  induction fuel as [|fuel IH]; intros stack current visited totalTime m c s Hfuel; [lia|].
  simpl. apply returns_bind, returns_probe, returns_bind, returns_get_self.
  apply returns_bind. simpl.
  set (K := λ (pre : list Neighbor) (vars : gset string * Z) (u : Runtime),
         vars.1 = visited ∧ self u = self s ∧ Z.max m c ≤ vars.2
         ∧ (∀ e p, e ∈ pre → admissible (self s) limit visited current totalTime (e :: p) →
                   c + 1 + Z.of_nat (length p) ≤ vars.2)
         ∧ (vars.2 = m
            ∨ ∃ p, admissible (self s) limit visited current totalTime p
                   ∧ vars.2 = c + Z.of_nat (length p))).
  apply returns_mono with (Q := K ([] ++ neighbors_of (self s) current)).
  - apply returns_for_of_prefix.
    + intros pre neighbor [v cme] u Hin (Hv & Hu & Hlow & Hall & Hex).
      simpl in Hv, Hlow, Hall, Hex. subst v. unfold dfs_edge.
      destruct (decide (node neighbor ∈ visited)) as [Hmem|Hmem].
      { apply returns_ret. repeat split; simpl; try done.
        intros e p [He | ->%list_elem_of_singleton]%elem_of_app Hp; [by eapply Hall|].
        by destruct Hp as (_ & Hnot & _). }
      apply returns_bind. case_bool_decide as Hlt.
      * eapply returns_mono.
        { apply IH. rewrite Hu. apply neighbors_of_targets in Hin.
          assert (targets (graph (self s)) ∖ (visited ∪ {[node neighbor]})
                  ⊂ targets (graph (self s)) ∖ visited) as Hsub by set_solver.
          apply subset_size in Hsub. lia. }
        intros [v r] u' (Hv & Hu' & Hge & Hall' & Hex'). simpl in Hv, Hge, Hall', Hex'.
        subst v. rewrite Hu in Hall', Hex'.
        apply returns_ret. repeat split; simpl.
        -- set_solver.
        -- congruence.
        -- lia.
        -- intros e p [He | ->%list_elem_of_singleton]%elem_of_app Hp.
           ++ specialize (Hall e p He Hp). lia.
           ++ destruct Hp as (_ & _ & _ & Hp). specialize (Hall' p Hp). lia.
        -- destruct Hex' as [->|(p & Hp & ->)]; [done|]. right.
           exists (neighbor :: p). split; [by repeat split|]. simpl length. lia.
      * apply returns_ret, returns_ret. repeat split; simpl; try done; [set_solver|].
        intros e p [He | ->%list_elem_of_singleton]%elem_of_app Hp; [by eapply Hall|].
        destruct Hp as (_ & _ & Hp & _). lia.
    + repeat split; simpl; try done.
      * intros e p He. by apply elem_of_nil in He.
      * destruct (Z.max_spec m c) as [[_ ->]|[_ ->]]; [|by left].
        right. exists []. split; [done|]. simpl. lia.
  - intros [v r] u (Hv & Hu & Hlow & Hall & Hex). simpl in Hv, Hlow, Hall, Hex. subst v.
    apply returns_bind, returns_probe, returns_ret. repeat split; simpl; try done; [lia|].
    intros [|e p] Hp; simpl length.
    + lia.
    + assert (e ∈ neighbors_of (self s) current) as He by (by destruct Hp).
      specialize (Hall e p He Hp). lia.
Qed.

Lemma admissible_included o1 o2 limit p :
  edges_included o1 o2 →
  ∀ visited current totalTime,
    admissible o1 limit visited current totalTime p →
    admissible o2 limit visited current totalTime p.
Proof.
  intros Hinc. induction p as [|e p IH]; intros visited current totalTime; [done|].
  simpl. intros (He & Hv & Hlt & Hp). repeat split; try done; [by apply Hinc|by apply IH].
Qed.

(** An admissible path visits new targets only, so it is no longer than
    the number of targets not yet visited. *)
Lemma admissible_length o limit p :
  ∀ visited current totalTime,
    admissible o limit visited current totalTime p →
    (length p ≤ size (targets (graph o) ∖ visited))%nat.
Proof.
  induction p as [|e p IH]; intros visited current totalTime; simpl; [lia|].
  intros (He & Hv & _ & Hp). apply IH in Hp. apply neighbors_of_targets in He.
  assert (targets (graph o) ∖ (visited ∪ {[node e]}) ⊂ targets (graph o) ∖ visited)
    as Hsub by set_solver.
  apply subset_size in Hsub. lia.
Qed.

(** [maxReachableCount] returns the number of islands of a longest
    admissible path from [start]. *)
Lemma maxReachableCount_optimal limit start s :
  ∃ r evs,
    maxReachableCount limit start s = Some (r, with_probes s evs)
    ∧ (∀ p, admissible (self s) limit {[start]} start 0 p → 1 + Z.of_nat (length p) ≤ r)
    ∧ (∃ p, admissible (self s) limit {[start]} start 0 p ∧ r = 1 + Z.of_nat (length p)).
Proof.
  destruct (maxReachableCount_returns limit start s) as (r & evs & Hrun & Hone & _).
  destruct (dfs_optimal limit (dfs_depth (self s)) [start] start {[start]} 0 0 1 s)
    as ([v r'] & s' & Hdfs & _ & _ & _ & Hall & Hex).
  { unfold dfs_depth.
    assert (size (targets (graph (self s)) ∖ {[start]}) ≤ size (targets (graph (self s))))%nat
      by (apply subseteq_size; set_solver).
    lia. }
  rewrite maxReachableCount_unfold, Hdfs in Hrun. injection Hrun as -> ->.
  simpl in Hall, Hex. exists r, evs. rewrite maxReachableCount_unfold, Hdfs.
  repeat split; [done|]. destruct Hex as [->|Hex]; [lia|done].
Qed.

(** ** Further properties: the graph store *)

(** What a registration leaves behind, field by field. *)
Lemma addIslandOrExperience_fields island ns pop s :
  addIslandOrExperience island ns pop s
    = Some ((), after (addIslandOrExperience island ns pop) s)
  ∧ graph (self (after (addIslandOrExperience island ns pop) s))
    = <[island := ns]> (graph (self s))
  ∧ populations (self (after (addIslandOrExperience island ns pop) s))
    = match pop with
      | Some p => <[island := p]> (populations (self s))
      | None => populations (self s)
      end
  ∧ lastVisit (self (after (addIslandOrExperience island ns pop) s))
    = match pop with
      | Some _ => <[island := NegInfinity]> (lastVisit (self s))
      | None => lastVisit (self s)
      end.
Proof. destruct pop; repeat split; reflexivity. Qed.

Lemma neighbors_of_registered island ns pop s current :
  neighbors_of (self (after (addIslandOrExperience island ns pop) s)) current
  = if decide (island = current) then ns else neighbors_of (self s) current.
Proof.
  destruct (addIslandOrExperience_fields island ns pop s) as (_ & Hg & _).
  unfold neighbors_of. rewrite Hg, lookup_insert. by case_decide.
Qed.

(** X1: a registration always returns; afterwards the island's edge list
    is the list given (replacing any earlier one), the edge list of every
    other island is what it was, and the canoes, the distributed set and
    the clock are untouched. *)
Theorem X1_register_then_lookup (s : Runtime) (island : string)
    (ns : list Neighbor) (pop : option Z) :
  ∃ s',
    addIslandOrExperience island ns pop s = Some ((), s')
    ∧ neighbors_of (self s') island = ns
    ∧ (∀ other, other ≠ island →
         neighbors_of (self s') other = neighbors_of (self s) other)
    ∧ canoesAvailable (self s') = canoesAvailable (self s)
    ∧ resourcesDistributed (self s') = resourcesDistributed (self s)
    ∧ reads s' = reads s.
Proof.
  exists (after (addIslandOrExperience island ns pop) s).
  split; [by destruct pop|]. split; [|split].
  - rewrite neighbors_of_registered. by rewrite decide_True.
  - intros other Hne. rewrite neighbors_of_registered. by rewrite decide_False.
  - by destruct pop.
Qed.

Lemma X1_register_then_lookup_witness :
  ∃ s',
    addIslandOrExperience "B" [mkNeighbor "C" 1 1] None scenario = Some ((), s')
    ∧ neighbors_of (self s') "B" = [mkNeighbor "C" 1 1]
    ∧ (∀ other, other ≠ "B" →
         neighbors_of (self s') other = neighbors_of (self scenario) other)
    ∧ canoesAvailable (self s') = canoesAvailable (self scenario)
    ∧ resourcesDistributed (self s') = resourcesDistributed (self scenario)
    ∧ reads s' = reads scenario.
Proof. exact (X1_register_then_lookup scenario "B" [mkNeighbor "C" 1 1] None). Defined.

(** X2: registering an island with a population makes it a never-visited
    island whatever its history: its last visit is [-Infinity] again, and
    for a strictly positive population its priority is [+Infinity]. *)
Theorem X2_register_with_population_resets (s : Runtime) (island : string)
    (ns : list Neighbor) (p : Z) :
  0 < p →
  populations (self (after (addIslandOrExperience island ns (Some p)) s)) !! island
    = Some p
  ∧ lastVisit (self (after (addIslandOrExperience island ns (Some p)) s)) !! island
    = Some NegInfinity
  ∧ fst <$> calculatePriority island (after (addIslandOrExperience island ns (Some p)) s)
    = Some PosInfinity.
Proof.
  intros Hp.
  destruct (addIslandOrExperience_fields island ns (Some p) s) as (_ & _ & Hpop & Hlv).
  assert (populations (self (after (addIslandOrExperience island ns (Some p)) s)) !! island
          = Some p) as Hpop' by (by rewrite Hpop, lookup_insert_eq).
  assert (lastVisit (self (after (addIslandOrExperience island ns (Some p)) s)) !! island
          = Some NegInfinity) as Hlv' by (by rewrite Hlv, lookup_insert_eq).
  repeat split; [done|done|].
  rewrite (calculatePriority_never_visited _ island p Hpop' Hlv').
  unfold scale_infinity. by destruct (Z.compare_spec p 0); try lia.
Qed.

(** X3: registering an island without a population writes the edge list
    only: the populations and the last visits, also those of the island
    itself, stay what they were. *)
Theorem X3_register_without_population_keeps_metadata (s : Runtime) (island : string)
    (ns : list Neighbor) :
  ∃ s',
    addIslandOrExperience island ns None s = Some ((), s')
    ∧ neighbors_of (self s') island = ns
    ∧ populations (self s') = populations (self s)
    ∧ lastVisit (self s') = lastVisit (self s).
Proof.
  exists (after (addIslandOrExperience island ns None) s). repeat split.
  rewrite neighbors_of_registered. by rewrite decide_True.
Qed.

Lemma X2_register_with_population_resets_witness :
  0 < 500
  ∧ populations (self (after (addIslandOrExperience "A" [] (Some 500)) scenario)) !! "A"
    = Some 500
  ∧ lastVisit (self (after (addIslandOrExperience "A" [] (Some 500)) scenario)) !! "A"
    = Some NegInfinity
  ∧ fst <$> calculatePriority "A" (after (addIslandOrExperience "A" [] (Some 500)) scenario)
    = Some PosInfinity.
Proof.
  assert (0 < 500) as Hp by lia. split; [exact Hp|].
  exact (X2_register_with_population_resets scenario "A" [] 500 Hp).
Defined.

Lemma Problem1_addExperience_fields experience ns p s :
  Problem1.addExperience experience ns p s
    = Some ((), after (Problem1.addExperience experience ns p) s)
  ∧ graph (self (after (Problem1.addExperience experience ns p) s))
    = <[experience := ns]> (graph (self s))
  ∧ populations (self (after (Problem1.addExperience experience ns p) s))
    = <[experience := p]> (populations (self s))
  ∧ lastVisit (self (after (Problem1.addExperience experience ns p) s))
    = <[experience := NegInfinity]> (lastVisit (self s)).
Proof. repeat split; reflexivity. Qed.

(** X4: [IslandTour.addExperience] of [Problem1.ts] always returns,
    stores the edge list, and makes the experience never visited whatever
    its history; for a strictly positive population its priority is then
    [+Infinity]. *)
Theorem X4_addExperience_resets (s : Runtime) (experience : string)
    (ns : list Neighbor) (p : Z) :
  0 < p →
  Problem1.addExperience experience ns p s
    = Some ((), after (Problem1.addExperience experience ns p) s)
  ∧ neighbors_of (self (after (Problem1.addExperience experience ns p) s)) experience = ns
  ∧ lastVisit (self (after (Problem1.addExperience experience ns p) s)) !! experience
    = Some NegInfinity
  ∧ fst <$> calculatePriority experience (after (Problem1.addExperience experience ns p) s)
    = Some PosInfinity.
Proof.
  intros Hp.
  destruct (Problem1_addExperience_fields experience ns p s) as (Hrun & Hg & Hpop & Hlv).
  assert (populations (self (after (Problem1.addExperience experience ns p) s)) !! experience
          = Some p) as Hpop' by (by rewrite Hpop, lookup_insert_eq).
  assert (lastVisit (self (after (Problem1.addExperience experience ns p) s)) !! experience
          = Some NegInfinity) as Hlv' by (by rewrite Hlv, lookup_insert_eq).
  split; [done|]. split; [|split; [done|]].
  - unfold neighbors_of. by rewrite Hg, lookup_insert_eq.
  - rewrite (calculatePriority_never_visited _ experience p Hpop' Hlv').
    unfold scale_infinity. by destruct (Z.compare_spec p 0); try lia.
Qed.

Lemma X4_addExperience_resets_witness :
  0 < 1000
  ∧ Problem1.addExperience "experience1" [mkNeighbor "experience2" 10 5] 1000 demo
    = Some ((), after (Problem1.addExperience "experience1"
                         [mkNeighbor "experience2" 10 5] 1000) demo)
  ∧ neighbors_of (self (after (Problem1.addExperience "experience1"
                                 [mkNeighbor "experience2" 10 5] 1000) demo))
                 "experience1" = [mkNeighbor "experience2" 10 5]
  ∧ lastVisit (self (after (Problem1.addExperience "experience1"
                              [mkNeighbor "experience2" 10 5] 1000) demo))
      !! "experience1" = Some NegInfinity
  ∧ fst <$> calculatePriority "experience1"
              (after (Problem1.addExperience "experience1"
                        [mkNeighbor "experience2" 10 5] 1000) demo)
    = Some PosInfinity.
Proof.
  assert (0 < 1000) as Hp by lia. split; [exact Hp|].
  exact (X4_addExperience_resets demo "experience1" [mkNeighbor "experience2" 10 5]
           1000 Hp).
Defined.

(** ** Further properties: the enumerator, continued *)

Lemma findMaxExperiences_optimal start s :
  ∃ r,
    fst <$> findMaxExperiences start s = Some r
    ∧ (∀ p, admissible (self s) time_limit {[start]} start 0 p →
            1 + Z.of_nat (length p) ≤ r)
    ∧ (∃ p, admissible (self s) time_limit {[start]} start 0 p
            ∧ r = 1 + Z.of_nat (length p)).
Proof.
  destruct (maxReachableCount_optimal time_limit start s) as (r & evs & Hrun & Hall & Hex).
  exists r. unfold findMaxExperiences. by rewrite Hrun.
Qed.

(** The result can only grow with the set of edges; nothing else of the
    object matters. *)
Lemma findMaxExperiences_edges_included start s1 s2 :
  edges_included (self s1) (self s2) →
  ∃ r1 r2,
    fst <$> findMaxExperiences start s1 = Some r1
    ∧ fst <$> findMaxExperiences start s2 = Some r2
    ∧ r1 ≤ r2.
Proof.
  intros Hinc.
  destruct (findMaxExperiences_optimal start s1) as (r1 & Hrun1 & _ & p & Hp & ->).
  destruct (findMaxExperiences_optimal start s2) as (r2 & Hrun2 & Hall & _).
  exists (1 + Z.of_nat (length p)), r2. repeat split; [done|done|].
  apply Hall. by eapply admissible_included.
Qed.



(** X7: the result counts the start island and at most every other
    island that some edge leads to: it lies between 1 and 1 plus the
    number of edge targets other than [start]. *)
Theorem X7_count_bounds (s : Runtime) (start : string) :
  ∃ r,
    fst <$> findMaxExperiences start s = Some r
    ∧ 1 ≤ r
    ∧ r ≤ 1 + Z.of_nat (size (targets (graph (self s)) ∖ {[start]})).
Proof.
  destruct (findMaxExperiences_optimal start s) as (r & Hrun & _ & p & Hp & ->).
  exists (1 + Z.of_nat (length p)). apply admissible_length in Hp.
  repeat split; [done|lia|lia].
Qed.

(** X8: the order of an island's edge list does not matter: registering
    the list in another order gives the same result from every start. *)
Theorem X8_edge_order_is_irrelevant (s : Runtime) (island start : string)
    (ns ns' : list Neighbor) (pop : option Z) :
  ns ≡ₚ ns' →
  fst <$> findMaxExperiences start (after (addIslandOrExperience island ns pop) s)
  = fst <$> findMaxExperiences start (after (addIslandOrExperience island ns' pop) s).
Proof.
  intros Hperm.
  assert (∀ l l' : list Neighbor, l ≡ₚ l' →
            edges_included (self (after (addIslandOrExperience island l pop) s))
                           (self (after (addIslandOrExperience island l' pop) s))) as Hinc.
  { intros l l' Hl current e. rewrite !neighbors_of_registered.
    case_decide; [|done]. by rewrite Hl. }
  destruct (findMaxExperiences_edges_included start _ _ (Hinc ns ns' Hperm))
    as (r1 & r2 & H1 & H2 & Hle).
  destruct (findMaxExperiences_edges_included start _ _ (Hinc ns' ns (symmetry Hperm)))
    as (r2' & r1' & H2' & H1' & Hge).
  rewrite H1, H2. rewrite H1 in H1'. rewrite H2 in H2'.
  injection H1' as <-. injection H2' as <-. f_equal. lia.
Qed.

Lemma X8_edge_order_is_irrelevant_witness :
  ([mkNeighbor "B" 10 5; mkNeighbor "C" 15 8] ≡ₚ [mkNeighbor "C" 15 8; mkNeighbor "B" 10 5])
  ∧ fst <$> findMaxExperiences "A"
              (after (addIslandOrExperience "A"
                        [mkNeighbor "B" 10 5; mkNeighbor "C" 15 8] None) scenario)
    = fst <$> findMaxExperiences "A"
                (after (addIslandOrExperience "A"
                          [mkNeighbor "C" 15 8; mkNeighbor "B" 10 5] None) scenario).
Proof.
  assert ([mkNeighbor "B" 10 5; mkNeighbor "C" 15 8]
          ≡ₚ [mkNeighbor "C" 15 8; mkNeighbor "B" 10 5]) as Hperm by apply perm_swap.
  split; [exact Hperm|].
  exact (X8_edge_order_is_irrelevant scenario "A" "A" _ _ None Hperm).
Defined.

(** X9: registering an island with a larger edge list never lowers a
    result: if every edge of [ns] is in [ns'], the result from any start
    after registering [ns'] is at least the result after registering
    [ns]. *)
Theorem X9_more_edges_never_lower (s : Runtime) (island start : string)
    (ns ns' : list Neighbor) (pop pop' : option Z) :
  ns ⊆ ns' →
  ∃ r r',
    fst <$> findMaxExperiences start (after (addIslandOrExperience island ns pop) s)
      = Some r
    ∧ fst <$> findMaxExperiences start (after (addIslandOrExperience island ns' pop') s)
      = Some r'
    ∧ r ≤ r'.
Proof.
  intros Hsub. apply findMaxExperiences_edges_included.
  intros current e. rewrite !neighbors_of_registered. case_decide; [|done]. apply Hsub.
Qed.

Lemma X9_more_edges_never_lower_witness :
  ([mkNeighbor "B" 10 5] ⊆ [mkNeighbor "B" 10 5; mkNeighbor "C" 15 8])
  ∧ ∃ r r',
      fst <$> findMaxExperiences "A"
                (after (addIslandOrExperience "A" [mkNeighbor "B" 10 5] None) scenario)
        = Some r
      ∧ fst <$> findMaxExperiences "A"
                  (after (addIslandOrExperience "A"
                            [mkNeighbor "B" 10 5; mkNeighbor "C" 15 8] None) scenario)
        = Some r'
      ∧ r ≤ r'.
Proof.
  assert ([mkNeighbor "B" 10 5] ⊆ [mkNeighbor "B" 10 5; mkNeighbor "C" 15 8]) as Hsub.
  { intros e He. apply list_elem_of_singleton in He as ->. apply list_elem_of_here. }
  split; [exact Hsub|].
  exact (X9_more_edges_never_lower scenario "A" "A" _ _ None None Hsub).
Defined.

(** X10: when no edge out of [start] can be taken (the island is not
    registered, has no edge, or each of its edges comes back to it or
    costs 100 or more), the result is 1. *)
Theorem X10_no_affordable_edge (s : Runtime) (start : string) :
  (∀ e, e ∈ neighbors_of (self s) start →
        node e = start ∨ 100 ≤ travelTime e + resourceOrExperienceTime e) →
  fst <$> findMaxExperiences start s = Some 1.
Proof.
  intros Hedges.
  destruct (findMaxExperiences_optimal start s) as (r & Hrun & _ & p & Hp & ->).
  rewrite Hrun. destruct p as [|e p]; [done|].
  destruct Hp as (He & Hv & Hlt & _). unfold time_limit in Hlt.
  destruct (Hedges e He) as [Heq|Hcost]; [set_solver|lia].
Qed.

Lemma X10_no_affordable_edge_witness :
  (∀ e, e ∈ neighbors_of (self scenario) "D" →
        node e = "D" ∨ 100 ≤ travelTime e + resourceOrExperienceTime e)
  ∧ fst <$> findMaxExperiences "D" scenario = Some 1.
Proof.
  assert (∀ e, e ∈ neighbors_of (self scenario) "D" →
               node e = "D" ∨ 100 ≤ travelTime e + resourceOrExperienceTime e) as Hedges.
  { intros e He. by apply elem_of_nil in He. }
  split; [exact Hedges|]. exact (X10_no_affordable_edge scenario "D" Hedges).
Defined.

(** X5: [IslandTour.addExperience] of [Problem4.ts] writes the edge list
    only, and the enumerator sees it: once an experience is registered
    with an edge to another experience that costs less than 100, the
    count from it is at least 2. *)
Theorem X5_registered_edge_is_followed (s : Runtime) (experience : string)
    (ns : list Neighbor) (e : Neighbor) :
  e ∈ ns → node e ≠ experience →
  travelTime e + resourceOrExperienceTime e < 100 →
  ∃ r,
    fst <$> findMaxExperiences experience (after (Problem4.addExperience experience ns) s)
      = Some r
    ∧ 2 ≤ r
    ∧ populations (self (after (Problem4.addExperience experience ns) s))
      = populations (self s)
    ∧ lastVisit (self (after (Problem4.addExperience experience ns) s))
      = lastVisit (self s).
Proof.
  intros He Hne Hcost.
  destruct (findMaxExperiences_optimal experience
              (after (Problem4.addExperience experience ns) s)) as (r & Hrun & Hall & _).
  exists r. repeat split; [done|].
  specialize (Hall [e]). simpl in Hall. apply Hall. repeat split.
  - unfold neighbors_of. simpl. by rewrite lookup_insert_eq.
  - set_solver.
  - unfold time_limit. lia.
Qed.

Lemma X5_registered_edge_is_followed_witness :
  (mkNeighbor "experience2" 10 5 ∈ [mkNeighbor "experience2" 10 5])
  ∧ ("experience2" ≠ "experience1")
  ∧ (10 + 5 < 100)
  ∧ ∃ r,
      fst <$> findMaxExperiences "experience1"
                (after (Problem4.addExperience "experience1"
                          [mkNeighbor "experience2" 10 5]) demo) = Some r
      ∧ 2 ≤ r
      ∧ populations (self (after (Problem4.addExperience "experience1"
                                    [mkNeighbor "experience2" 10 5]) demo))
        = populations (self demo)
      ∧ lastVisit (self (after (Problem4.addExperience "experience1"
                                  [mkNeighbor "experience2" 10 5]) demo))
        = lastVisit (self demo).
Proof.
  assert (mkNeighbor "experience2" 10 5 ∈ [mkNeighbor "experience2" 10 5]) as He
    by apply list_elem_of_here.
  assert ("experience2" ≠ "experience1") as Hne by discriminate.
  assert (10 + 5 < 100) as Hcost by lia.
  split; [exact He|]. split; [exact Hne|]. split; [exact Hcost|].
  exact (X5_registered_edge_is_followed demo "experience1"
           [mkNeighbor "experience2" 10 5] (mkNeighbor "experience2" 10 5) He Hne Hcost).
Defined.

(** ** Further properties: the scorer *)



(** ** Further properties: the distribution *)

(** A loop keeps an invariant that its body keeps on the elements of the
    list (partial correctness). *)
Lemma for_of_invariant {A B} (body : A → B → M B) (I : B → Runtime → Prop) l :
  (∀ x acc s acc' s', x ∈ l → I acc s → body x acc s = Some (acc', s') → I acc' s') →
  ∀ acc s acc' s', I acc s → for_of body l acc s = Some (acc', s') → I acc' s'.
Proof.
  induction l as [|x l IH]; intros Hbody acc s acc' s' HI Hrun; simpl in Hrun.
  - by injection Hrun as <- <-.
  - unfold mbind, M_bind in Hrun.
    destruct (body x acc s) as [[acc1 s1]|] eqn:Hx; [|done].
    eapply IH; [|eapply Hbody; [apply list_elem_of_here|exact HI|exact Hx]|exact Hrun].
    intros y ????? . apply Hbody. by apply list_elem_of_further.
Qed.

(** What a [distributeResource] invocation that returns has done: it
    planted [current] first unless it was planted already, it planted
    [current] and edge targets only, and it never saw a negative number
    of canoes unless it started with one. *)
Lemma distributeResource_trace fuel :
  ∀ stack current totalTime rc s r s',
    distributeResource fuel stack current totalTime rc s = Some (r, s') →
    ∃ evs,
      s' = with_distribution s
             (resourcesDistributed (self s) ∪ list_to_set (planted evs)) evs
      ∧ (current ∉ resourcesDistributed (self s) → head (planted evs) = Some current)
      ∧ (∀ x, x ∈ planted evs → x = current ∨ x ∈ targets (graph (self s)))
      ∧ (0 ≤ canoesAvailable (self s) →
         ∀ stk c, DistEnter stk c ∈ evs ∨ DistLeave stk c ∈ evs → 0 ≤ c).
Proof.
  induction fuel as [|fuel IH]; intros stack current totalTime rc s r s' Hrun; [done|].
  rewrite distributeResource_unfold in Hrun. cbv zeta in Hrun.
  set (D := resourcesDistributed (self s)) in *.
  set (c0 := canoesAvailable (self s)) in *.
  destruct (decide (current ∈ D)) as [Hmem|Hmem].
  { injection Hrun as <- <-. exists [DistEnter stack c0; DistLeave stack c0].
    repeat split; simpl.
    - destruct s as [[g p v c d] clk n out ps].
      unfold with_probes, with_distribution, set_resourcesDistributed, D. simpl.
      by rewrite union_empty_r_L.
    - done.
    - intros x Hx. by apply elem_of_nil in Hx.
    - intros Hc stk c [Hin|Hin]; set_solver. }
  destruct (for_of _ _ _ _) as [[r1 s1]|] eqn:Hloop; [|done].
  injection Hrun as <- <-.
  set (I := λ (_ : Z) (u : Runtime), ∃ evs,
         u = with_distribution s (D ∪ list_to_set (planted evs)) evs
         ∧ head (planted evs) = Some current
         ∧ (∀ x, x ∈ planted evs → x = current ∨ x ∈ targets (graph (self s)))
         ∧ (0 ≤ c0 → ∀ stk c, DistEnter stk c ∈ evs ∨ DistLeave stk c ∈ evs → 0 ≤ c)).
  apply (for_of_invariant _ I) in Hloop.
  - destruct Hloop as (evs & -> & Hhead & Hin & Hpos).
    exists (evs ++ [DistLeave stack c0]). rewrite planted_app. simpl.
    rewrite !app_nil_r. repeat split; try done.
    + unfold with_probes, with_distribution. simpl. by rewrite app_assoc.
    + intros Hc stk c [[Hp|Hp]%elem_of_app|[Hp|Hp]%elem_of_app]; try (by eapply Hpos; eauto).
      * apply list_elem_of_singleton in Hp. discriminate.
      * apply list_elem_of_singleton in Hp. injection Hp as -> ->. done.
  - clear Hloop. intros e acc u acc' u' He (evs & -> & Hhead & Hin & Hpos).
    unfold distribute_edge, add_canoes, modify_self, mbind, M_bind, get_self, put_self.
    cbv beta iota. simpl self. simpl canoesAvailable. fold c0.
    destruct (_ && _) eqn:Hguard; [|intros [= <- <-]; by exists evs].
    apply andb_prop in Hguard as [Hc0%bool_decide_eq_true _].
    destruct (distributeResource fuel _ _ _ _ _) as [[r2 u2]|] eqn:Hcall; [|done].
    intros [= <- <-]. apply IH in Hcall as (evs' & -> & _ & Hin' & Hpos'). simpl in *.
    exists (evs ++ evs'). rewrite planted_app. repeat split.
    + unfold with_distribution. simpl. f_equal.
      * unfold set_canoesAvailable, set_resourcesDistributed. simpl. f_equal; [lia|].
        rewrite list_to_set_app_L. set_solver.
      * by rewrite app_assoc.
    + destruct (planted evs); [done|]. done.
    + intros x [Hx|Hx]%elem_of_app; [by apply Hin|]. right.
      destruct (Hin' x Hx) as [->|Hx']; [|done].
      eapply neighbors_of_targets. exact He.
    + intros Hc stk c Hp.
      assert (DistEnter stk c ∈ evs ∨ DistLeave stk c ∈ evs
              ∨ DistEnter stk c ∈ evs' ∨ DistLeave stk c ∈ evs') as [H|[H|H]].
      { destruct Hp as [[H|H]%elem_of_app|[H|H]%elem_of_app]; eauto. }
      * eapply Hpos; eauto.
      * eapply Hpos; eauto.
      * eapply (Hpos' ltac:(fold c0; lia)); eauto.
  - exists [DistEnter stack c0; Plant current]. simpl. repeat split.
    + rewrite union_empty_r_L. done.
    + intros x ->%list_elem_of_singleton. by left.
    + intros Hc stk c [Hp|Hp].
      * apply elem_of_cons in Hp as [[= -> ->]|Hp]; [done|].
        apply list_elem_of_singleton in Hp. discriminate.
      * apply elem_of_cons in Hp as [[=]|Hp].
        apply list_elem_of_singleton in Hp. discriminate.
Qed.

(** [distributeFrom], returned, with its state and its probes, and what
    [distributeResource_trace] says of them. *)
Lemma distributeFrom_trace start s :
  ∃ r evs,
    distributeFrom start s
      = Some (r, with_distribution s (list_to_set (planted evs)) evs)
    ∧ NoDup (planted evs) ∧ r = Z.of_nat (length (planted evs))
    ∧ Forall (dist_probe_ok (canoesAvailable (self s) + 1) [start]) evs
    ∧ head (planted evs) = Some start
    ∧ (∀ x, x ∈ planted evs → x = start ∨ x ∈ targets (graph (self s)))
    ∧ (0 ≤ canoesAvailable (self s) →
       ∀ stk c, DistEnter stk c ∈ evs ∨ DistLeave stk c ∈ evs → 0 ≤ c).
Proof.
  destruct (distributeFrom_returns start s) as (r & evs & Hrun & Hnd & Hr & Hok).
  exists r, evs. do 4 (split; [done|]).
  unfold distributeFrom, mbind, M_bind, modify_self, mbind, M_bind, get_self, put_self
    in Hrun.
  apply distributeResource_trace in Hrun as (evs' & Heq & Hhead & Hin & Hpos).
  simpl in Heq, Hhead, Hin, Hpos.
  assert (evs' = evs) as ->.
  { apply (f_equal probes) in Heq. simpl in Heq. by apply app_inv_head in Heq. }
  split; [apply Hhead; set_solver|]. by split.
Qed.

(** X12: [distributeFrom] plants the start island first, so the number it
    returns is at least 1; every island it plants is the start island or
    the target of an edge, so the number is at most 1 plus the number of
    edge targets other than [start]. *)
Theorem X12_start_is_planted_first (s : Runtime) (start : string) :
  ∃ r s' evs,
    distributeFrom start s = Some (r, s')
    ∧ probes s' = probes s ++ evs
    ∧ head (planted evs) = Some start
    ∧ start ∈ resourcesDistributed (self s')
    ∧ resourcesDistributed (self s') ⊆ {[start]} ∪ targets (graph (self s))
    ∧ 1 ≤ r
    ∧ r ≤ 1 + Z.of_nat (size (targets (graph (self s)) ∖ {[start]})).
Proof.
  destruct (distributeFrom_trace start s)
    as (r & evs & Hrun & Hnd & -> & _ & Hhead & Hin & _).
  exists (Z.of_nat (length (planted evs))),
         (with_distribution s (list_to_set (planted evs)) evs), evs.
  assert (start ∈ planted evs) as Hstart.
  { destruct (planted evs) as [|x l]; [done|]. injection Hhead as ->.
    apply list_elem_of_here. }
  assert ((list_to_set (planted evs) : gset string) ⊆ {[start]} ∪ targets (graph (self s)))
    as Hsub.
  { intros x Hx%elem_of_list_to_set. destruct (Hin x Hx) as [->|Hx']; set_solver. }
  do 2 (split; [done|]). split; [done|]. simpl.
  split; [by apply elem_of_list_to_set|]. split; [done|]. split.
  - destruct (planted evs); [by apply elem_of_nil in Hstart|simpl; lia].
  - apply subseteq_size in Hsub. rewrite size_list_to_set in Hsub by done.
    rewrite size_union_alt, size_singleton in Hsub. lia.
Qed.

(** X14: when the pool is not negative to begin with, the canoe counter
    is never negative at the entry to or at the return from an
    invocation of [distributeResource], and no invocation is more than
    [canoesAvailable] edges below the first one. *)
Theorem X14_canoes_never_negative (s : Runtime) (start : string) :
  0 ≤ canoesAvailable (self s) →
  ∃ r s' evs,
    distributeFrom start s = Some (r, s')
    ∧ probes s' = probes s ++ evs
    ∧ ∀ stk c, DistEnter stk c ∈ evs ∨ DistLeave stk c ∈ evs →
        0 ≤ c ∧ Z.of_nat (length stk) ≤ canoesAvailable (self s) + 1.
Proof.
  intros Hc.
  destruct (distributeFrom_trace start s)
    as (r & evs & Hrun & _ & _ & Hok & _ & _ & Hpos).
  exists r, (with_distribution s (list_to_set (planted evs)) evs), evs.
  do 2 (split; [done|]). intros stk c Hin.
  specialize (Hpos Hc stk c Hin). rewrite Forall_forall in Hok.
  assert (dist_probe_ok (canoesAvailable (self s) + 1) [start] (DistEnter stk c)) as Hp.
  { destruct Hin as [Hin|Hin]; by apply Hok in Hin. }
  destruct Hp as [_ Hsum]. lia.
Qed.

Lemma X14_canoes_never_negative_witness :
  0 ≤ canoesAvailable (self scenario)
  ∧ ∃ r s' evs,
      distributeFrom "A" scenario = Some (r, s')
      ∧ probes s' = probes scenario ++ evs
      ∧ ∀ stk c, DistEnter stk c ∈ evs ∨ DistLeave stk c ∈ evs →
          0 ≤ c ∧ Z.of_nat (length stk) ≤ canoesAvailable (self scenario) + 1.
Proof.
  assert (0 ≤ canoesAvailable (self scenario)) as Hc by (by vm_compute).
  split; [exact Hc|]. exact (X14_canoes_never_negative scenario "A" Hc).
Defined.

(** Two loops over one list, the second started from a state related to
    that of the first: when the first returns, so does the second, with
    the same value and related states (partial correctness). *)
Lemma for_of_simulation {A B} (body1 body2 : A → B → M B)
    (R : Runtime → Runtime → Prop) l :
  (∀ x acc s1 s2 acc' s1', R s1 s2 → body1 x acc s1 = Some (acc', s1') →
     ∃ s2', body2 x acc s2 = Some (acc', s2') ∧ R s1' s2') →
  ∀ acc s1 s2 acc' s1', R s1 s2 → for_of body1 l acc s1 = Some (acc', s1') →
    ∃ s2', for_of body2 l acc s2 = Some (acc', s2') ∧ R s1' s2'.
Proof.
  intros Hbody. induction l as [|x l IH]; intros acc s1 s2 acc' s1' HR Hrun;
    simpl in *.
  - injection Hrun as <- <-. by exists s2.
  - unfold mbind, M_bind in *.
    destruct (body1 x acc s1) as [[acc1 t1]|] eqn:Hx; [|done].
    destruct (Hbody _ _ _ _ _ _ HR Hx) as (t2 & -> & HR'). by eapply IH.
Qed.

(** [distributeResource] is steered by the graph, the canoes and the
    distributed set, and by nothing else of the state. *)
Lemma distributeResource_reads fuel :
  ∀ stack current totalTime rc u1 u2 r u1',
    same_for_distribution u1 u2 →
    distributeResource fuel stack current totalTime rc u1 = Some (r, u1') →
    ∃ u2',
      distributeResource fuel stack current totalTime rc u2 = Some (r, u2')
      ∧ same_for_distribution u1' u2'.
Proof.
  induction fuel as [|fuel IH];
    intros stack current totalTime rc u1 u2 r u1' (Hg & Hc & Hd) Hrun; [done|].
  rewrite distributeResource_unfold in *. cbv zeta in *. rewrite <- Hd.
  destruct (decide (current ∈ resourcesDistributed (self u1))).
  { injection Hrun as <- <-. eexists. split; [reflexivity|]. by repeat split. }
  destruct (for_of _ _ _ _) as [[r1 t1]|] eqn:Hloop; [|done]. injection Hrun as <- <-.
  set (d := resourcesDistributed (self u1) ∪ {[current]}) in *.
  assert (∀ evs, neighbors_of (self (with_distribution u2 d evs)) current
          = neighbors_of (self (with_distribution u1 d evs)) current) as Hn
    by (intros evs; unfold neighbors_of; simpl; by rewrite Hg).
  rewrite Hn.
  destruct (for_of_simulation
              (distribute_edge (distributeResource fuel) stack totalTime)
              (distribute_edge (distributeResource fuel) stack totalTime)
              same_for_distribution
              (neighbors_of (self (with_distribution u1 d
                 [DistEnter stack (canoesAvailable (self u2)); Plant current])) current))
    with (acc := rc + 1)
         (s1 := with_distribution u1 d
                  [DistEnter stack (canoesAvailable (self u1)); Plant current])
         (s2 := with_distribution u2 d
                  [DistEnter stack (canoesAvailable (self u2)); Plant current])
         (acc' := r1) (s1' := t1)
    as (t2 & -> & Ht); [|by repeat split|done|].
  - intros e acc s1 s2 acc' s1' (Hsg & Hsc & Hsd).
    unfold distribute_edge, add_canoes, modify_self, mbind, M_bind, get_self, put_self.
    cbv beta iota. rewrite <- Hsc. destruct (_ && _); [|intros [= <- <-]; by eexists].
    destruct (distributeResource fuel _ _ _ _ _) as [[r2 t1']|] eqn:Hcall; [|done].
    intros [= <- <-].
    assert (same_for_distribution
              (mkRuntime (set_canoesAvailable (canoesAvailable (self s1) + -1) (self s1))
                         (clock s1) (reads s1) (console s1) (probes s1))
              (mkRuntime (set_canoesAvailable (canoesAvailable (self s2) + -1) (self s2))
                         (clock s2) (reads s2) (console s2) (probes s2))) as HR
      by (repeat split; simpl; congruence).
    destruct (IH _ _ _ _ _ _ _ _ HR Hcall) as (t2' & Hcall2 & (Hg' & Hc' & Hd')).
    rewrite Hcall2. eexists. split; [reflexivity|]. repeat split; simpl; congruence.
  - eexists. split; [reflexivity|]. by destruct Ht as (? & ? & ?).
Qed.

Lemma distributeFrom_reads start s1 s2 r s1' :
  graph (self s1) = graph (self s2) →
  canoesAvailable (self s1) = canoesAvailable (self s2) →
  distributeFrom start s1 = Some (r, s1') →
  ∃ s2', distributeFrom start s2 = Some (r, s2') ∧ same_for_distribution s1' s2'.
Proof.
  intros Hg Hc Hrun.
  unfold distributeFrom, mbind, M_bind, modify_self, mbind, M_bind, get_self, put_self
    in *.
  assert (same_for_distribution
            (mkRuntime (set_resourcesDistributed ∅ (self s1)) (clock s1) (reads s1)
                       (console s1) (probes s1))
            (mkRuntime (set_resourcesDistributed ∅ (self s2)) (clock s2) (reads s2)
                       (console s2) (probes s2))) as HR by (by repeat split).
  destruct (distributeResource_reads _ _ _ _ _ _ _ _ _ HR Hrun) as (s2' & Hrun2 & HR').
  exists s2'. split; [|done]. unfold distribute_depth in *. simpl in *.
  by rewrite <- Hg.
Qed.


(** ** Further properties: the broadcast *)

(** One edge of the broadcast, at any interval: the target ends up seen,
    it is queued unless it was seen already, and only the clock and the
    console change. *)
Lemma shareKnowledge_edge_frame visitInterval neighbor v q u v' q' u' :
  shareKnowledge_edge visitInterval neighbor (v, q) u = Some ((v', q'), u') →
  self u' = self u ∧ clock u' = clock u ∧ probes u' = probes u
  ∧ (reads u ≤ reads u')%nat
  ∧ ((v' = v ∪ {[node neighbor]} ∧ q' = q ++ [node neighbor])
     ∨ (v' = v ∧ q' = q ∧ node neighbor ∈ v)).
Proof.
  unfold shareKnowledge_edge, mbind, M_bind.
  destruct (decide (node neighbor ∈ v)) as [Hmem|Hmem]; simpl.
  - destruct (num_gtb _ _); simpl; intros [= <- <- <-]; simpl;
      repeat split; try done; try lia; [by left|by right].
  - intros [= <- <- <-]. simpl. repeat split; try done. by left.
Qed.

Lemma stamped_during_later s u u' island :
  clock u = clock s → lastVisit (self u') !! island = lastVisit (self u) !! island →
  (reads u ≤ reads u')%nat →
  stamped_during s u island → stamped_during s u' island.
Proof.
  intros Hc Hlv Hr (n & Hn & Hst). exists n. rewrite Hlv. split; [lia|done].
Qed.

(** The loop keeps [broadcast_inv] until it returns with an empty queue. *)
Lemma shareKnowledge_loop_inv s visitInterval :
  ∀ steps u visited queue handled u',
    broadcast_inv s u visited queue handled →
    shareKnowledge_loop steps visitInterval visited queue u = Some ((), u') →
    ∃ visited' handled',
      visited ⊆ visited' ∧ broadcast_inv s u' visited' [] handled'.
Proof.
  induction steps as [|steps IH]; intros u visited queue handled u' Hinv Hrun.
  { destruct queue; [|done]. injection Hrun as <-. by exists visited, handled. }
  destruct queue as [|z rest].
  { injection Hrun as <-. by exists visited, handled. }
  destruct Hinv as (Hframe & Hhandled & Hseen).
  destruct (decide (z = "")) as [->|Hz].
  { simpl in Hrun. eapply IH; [|exact Hrun]. split; [done|]. split; [done|].
    intros y Hy Hne. destruct (Hseen y Hy Hne) as [Hin|Hin]; [|by right].
    apply elem_of_cons in Hin as [->|Hin]; [done|by left]. }
  rewrite shareKnowledge_loop_step in Hrun by done. cbv zeta in Hrun.
  set (o1 := set_lastVisit _ (self u)) in *.
  set (u1 := mkRuntime o1 _ _ _ _) in *.
  destruct Hframe as (Hg & Hpop & Hcan & Hdist & Hclk & Hprobes & Hreads & Hempty & Hlv).
  assert (stamped_during s u1 z) as Hstz.
  { exists (reads u). simpl. rewrite lookup_insert_eq, Hclk. split; [lia|done]. }
  assert (∀ y, stamped_during s u y → stamped_during s u1 y) as Hkeep.
  { intros y Hy. destruct (decide (y = z)) as [->|Hne]; [done|].
    eapply stamped_during_later; [exact Hclk| |simpl; lia|exact Hy].
    simpl. by rewrite lookup_insert_ne. }
  destruct (for_of _ _ _ _) as [[[v' q'] w]|] eqn:Hloop; [|done].
  set (K := λ (pre : list Neighbor) (acc : gset string * list string) (w : Runtime),
         self w = o1 ∧ clock w = clock s ∧ probes w = probes s
         ∧ (reads u1 ≤ reads w)%nat
         ∧ visited ⊆ acc.1
         ∧ (∀ y, y ∈ rest → y ∈ acc.2)
         ∧ (∀ y, y ∈ acc.1 → y ≠ "" → y ∈ acc.2 ∨ y ∈ handled ∨ y = z)
         ∧ (∀ e, e ∈ pre → node e ∈ acc.1)).
  apply (for_of_prefix _ K) with (pre := []) in Hloop.
  - destruct Hloop as (Hw & Hwc & Hwp & Hwr & Hvis & Hrest & Hseen' & Hpre).
    simpl in Hvis, Hrest, Hseen', Hpre, Hwr.
    destruct (IH w v' q' (handled ∪ {[z]}) u') as (v'' & h'' & Hsub & Hinv'');
      [|exact Hrun|exists v'', h''; split; [set_solver|done]].
    assert (∀ y, stamped_during s u1 y → stamped_during s w y) as Hkeep'.
    { intros y. apply stamped_during_later; [done|by rewrite Hw|done]. }
    unfold broadcast_inv, broadcast_frame. rewrite Hw. simpl. split_and!; try done.
    + lia.
    + by rewrite lookup_insert_ne.
    + intros y. destruct (decide (y = z)) as [->|Hne]; [right; by apply Hkeep'|].
      destruct (Hlv y) as [Heq|Hst]; [left|right; by apply Hkeep', Hkeep].
      by rewrite lookup_insert_ne.
    + intros x [Hx | ->%elem_of_singleton]%elem_of_union.
      * destruct (Hhandled x Hx) as (Hne & Hst & Hedges). split_and!; [done| |].
        -- by apply Hkeep', Hkeep.
        -- intros e He. by apply Hvis, Hedges.
      * split_and!; [done|by apply Hkeep'|].
        intros e He. apply Hpre. unfold neighbors_of in *. subst o1. simpl.
        by rewrite Hg.
    + intros y Hy Hne. destruct (Hseen' y Hy Hne) as [?|[?| ->]]; set_solver.
  - clear Hloop. intros pre e [v1 q1] w1 [v2 q2] w2
      (Hw & Hwc & Hwp & Hwr & Hvis & Hrest & Hseen' & Hpre) Hedge.
    apply shareKnowledge_edge_frame in Hedge
      as (Hw2 & Hc2 & Hp2 & Hr2 & [[-> ->]|(-> & -> & Hin)]); simpl in *.
    + unfold K. simpl. split_and!; try congruence; try lia.
      * set_solver.
      * intros y Hy. apply elem_of_app. left. by apply Hrest.
      * intros y [Hy | ->%elem_of_singleton]%elem_of_union Hne.
        -- destruct (Hseen' y Hy Hne) as [Hq|Hh]; [left|by right].
           apply elem_of_app. by left.
        -- left. apply elem_of_app. right. by apply list_elem_of_singleton.
      * intros e' [He' | ->%list_elem_of_singleton]%elem_of_app; [|set_solver].
        apply elem_of_union. left. by apply Hpre.
    + unfold K. simpl. split_and!; try congruence; try lia; try done.
      intros e' [He' | ->%list_elem_of_singleton]%elem_of_app; [by apply Hpre|done].
  - subst u1 K. simpl. split_and!; try done.
    + intros y Hy Hne. destruct (Hseen y Hy Hne) as [Hin|Hin]; [|by right; left].
      apply elem_of_cons in Hin as [->|Hin]; [by right; right|by left].
    + intros e He. by apply elem_of_nil in He.
Qed.

Lemma shareKnowledge_returns_inv steps start visitInterval s s' :
  shareKnowledge steps start visitInterval s = Some ((), s') →
  ∃ visited handled, start ∈ visited ∧ broadcast_inv s s' visited [] handled.
Proof.
  unfold shareKnowledge, mbind, M_bind, console_log. intros Hrun.
  eapply shareKnowledge_loop_inv in Hrun as (visited & handled & Hsub & Hinv).
  - exists visited, handled. split; [set_solver|done].
  - instantiate (1 := ∅). unfold broadcast_inv, broadcast_frame. simpl.
    split_and!; try done.
    + by left.
    + intros y ->%elem_of_singleton _. left. apply list_elem_of_here.
Qed.

(** When the queue is empty, every island that can be reached from a seen
    island has been seen, and every seen island with a name carries a
    timestamp of this broadcast. *)
Lemma broadcast_covers s s' visited handled start y :
  broadcast_inv s s' visited [] handled → start ∈ visited →
  rtc (passable (self s)) start y →
  y ∈ visited ∧ (y ≠ "" → stamped_during s s' y).
Proof.
  intros (_ & Hhandled & Hseen) Hstart Hreach.
  assert (y ∈ visited) as Hy.
  { revert Hstart. induction Hreach as [x|x z y [Hx (e & He & <-)] _ IH];
      intros Hstart; [done|].
    apply IH. destruct (Hseen x Hstart Hx) as [Hq|Hh]; [by apply elem_of_nil in Hq|].
    destruct (Hhandled x Hh) as (_ & _ & Hedges). by apply Hedges. }
  split; [done|]. intros Hne.
  destruct (Hseen y Hy Hne) as [Hq|Hh]; [by apply elem_of_nil in Hq|].
  by destruct (Hhandled y Hh) as (_ & Hst & _).
Qed.


(** X15: a broadcast started at the island with the empty name visits
    nothing: the loop skips that name, so the call returns after one
    iteration with the object and the clock untouched and one line on
    the console. *)
Theorem X15_empty_name_is_skipped (s : Runtime) (steps : nat) (visitInterval : Z) :
  steps ≠ 0%nat →
  ∃ s',
    shareKnowledge steps "" visitInterval s = Some ((), s')
    ∧ self s' = self s ∧ reads s' = reads s
    ∧ console s' = console s ++ [Starting ""].
Proof.
  intros Hsteps. destruct steps as [|steps]; [done|].
  exists (mkRuntime (self s) (clock s) (reads s) (console s ++ [Starting ""]) (probes s)).
  split; [|done]. unfold shareKnowledge, mbind, M_bind, console_log. simpl.
  by destruct steps.
Qed.

Lemma X15_empty_name_is_skipped_witness :
  1%nat ≠ 0%nat
  ∧ ∃ s',
      shareKnowledge 1 "" 10000 demo = Some ((), s')
      ∧ self s' = self demo ∧ reads s' = reads demo
      ∧ console s' = console demo ++ [Starting ""].
Proof.
  assert (1%nat ≠ 0%nat) as Hsteps by discriminate.
  split; [exact Hsteps|]. exact (X15_empty_name_is_skipped demo 1 10000 Hsteps).
Defined.

(** X16: a broadcast that returns has changed last visits only, and each
    last visit it has changed is now a timestamp that the clock gave
    during the call; the last visit of the empty name is never written.
    The graph, the populations, the canoes and the distributed set are
    what they were. *)
Theorem X16_broadcast_writes_timestamps_only (s s' : Runtime) (steps : nat)
    (start : string) (visitInterval : Z) :
  shareKnowledge steps start visitInterval s = Some ((), s') →
  graph (self s') = graph (self s)
  ∧ populations (self s') = populations (self s)
  ∧ canoesAvailable (self s') = canoesAvailable (self s)
  ∧ resourcesDistributed (self s') = resourcesDistributed (self s)
  ∧ lastVisit (self s') !! "" = lastVisit (self s) !! ""
  ∧ ∀ y, lastVisit (self s') !! y = lastVisit (self s) !! y
         ∨ ∃ n, (reads s ≤ n < reads s')%nat
                ∧ lastVisit (self s') !! y = Some (Fin (clock s n)).
Proof.
  intros Hrun.
  apply shareKnowledge_returns_inv in Hrun as (visited & handled & _ & Hframe & _).
  destruct Hframe as (Hg & Hpop & Hcan & Hdist & _ & _ & _ & Hempty & Hlv).
  by split_and!.
Qed.

(** X17: a broadcast that returns has visited every island it can reach:
    every island with a name that is reachable from the start island
    along edges, through islands with a name, carries a timestamp that
    the clock gave during the call. *)
Theorem X17_broadcast_reaches_everything (s s' : Runtime) (steps : nat)
    (start y : string) (visitInterval : Z) :
  shareKnowledge steps start visitInterval s = Some ((), s') →
  rtc (passable (self s)) start y → y ≠ "" →
  ∃ n, (reads s ≤ n < reads s')%nat
       ∧ lastVisit (self s') !! y = Some (Fin (clock s n)).
Proof.
  intros Hrun Hreach Hy.
  apply shareKnowledge_returns_inv in Hrun as (visited & handled & Hstart & Hinv).
  by destruct (broadcast_covers s s' visited handled start y Hinv Hstart Hreach)
    as [_ Hst]; apply Hst.
Qed.


(** The program's own broadcast returns within five iterations, and
    experience4 is two edges away from experience1. *)
Lemma after_returns (m : M unit) s :
  is_Some (fst <$> m s) → m s = Some ((), after m s).
Proof.
  unfold after. destruct (m s) as [[[] s']|]; [done|]. by intros [? ?].
Qed.

Lemma demo_broadcast_returns :
  shareKnowledge 5 "experience1" 10000 demo = Some ((), demo_after_broadcast).
Proof. apply after_returns. vm_compute. by eexists. Qed.

Lemma demo_reaches_experience4 :
  rtc (passable (self demo)) "experience1" "experience4".
Proof.
  apply rtc_l with "experience2".
  { split; [discriminate|]. exists (mkNeighbor "experience2" 10 5).
    split; [|reflexivity]. vm_compute. apply list_elem_of_here. }
  apply rtc_once. split; [discriminate|]. exists (mkNeighbor "experience4" 20 12).
  split; [|reflexivity]. vm_compute. apply list_elem_of_here.
Qed.

Lemma X16_broadcast_writes_timestamps_only_witness :
  shareKnowledge 5 "experience1" 10000 demo = Some ((), demo_after_broadcast)
  ∧ graph (self demo_after_broadcast) = graph (self demo)
  ∧ populations (self demo_after_broadcast) = populations (self demo)
  ∧ canoesAvailable (self demo_after_broadcast) = canoesAvailable (self demo)
  ∧ resourcesDistributed (self demo_after_broadcast) = resourcesDistributed (self demo)
  ∧ lastVisit (self demo_after_broadcast) !! "" = lastVisit (self demo) !! ""
  ∧ ∀ y, lastVisit (self demo_after_broadcast) !! y = lastVisit (self demo) !! y
         ∨ ∃ n, (reads demo ≤ n < reads demo_after_broadcast)%nat
                ∧ lastVisit (self demo_after_broadcast) !! y = Some (Fin (clock demo n)).
Proof.
  split; [exact demo_broadcast_returns|].
  exact (X16_broadcast_writes_timestamps_only demo demo_after_broadcast 5
           "experience1" 10000 demo_broadcast_returns).
Defined.

Lemma X17_broadcast_reaches_everything_witness :
  shareKnowledge 5 "experience1" 10000 demo = Some ((), demo_after_broadcast)
  ∧ rtc (passable (self demo)) "experience1" "experience4"
  ∧ "experience4" ≠ ""
  ∧ ∃ n, (reads demo ≤ n < reads demo_after_broadcast)%nat
         ∧ lastVisit (self demo_after_broadcast) !! "experience4"
           = Some (Fin (clock demo n)).
Proof.
  assert ("experience4" ≠ "") as Hne by discriminate.
  split; [exact demo_broadcast_returns|]. split; [exact demo_reaches_experience4|].
  split; [exact Hne|].
  exact (X17_broadcast_reaches_everything demo demo_after_broadcast 5 "experience1"
           "experience4" 10000 demo_broadcast_returns demo_reaches_experience4 Hne).
Defined.


(** ** Further properties: the traversals share the graph only *)

(** X19: the enumerator reads the graph and nothing else, so neither a
    distribution nor a broadcast that returns changes what it returns:
    from every start, [findMaxExperiences] gives after either of them
    what it gave before. *)
Theorem X19_enumerator_after_other_traversals (s s' : Runtime) (steps : nat)
    (from start : string) (visitInterval : Z) :
  shareKnowledge steps from visitInterval s = Some ((), s') →
  fst <$> findMaxExperiences start s' = fst <$> findMaxExperiences start s
  ∧ ∃ r s'',
      distributeFrom from s = Some (r, s'')
      ∧ fst <$> findMaxExperiences start s'' = fst <$> findMaxExperiences start s.
Proof.
  intros Hrun.
  assert (∀ u1 u2, graph (self u1) = graph (self u2) →
            fst <$> findMaxExperiences start u1 = fst <$> findMaxExperiences start u2)
    as Hsame.
  { intros u1 u2 Hg.
    assert (∀ a b, graph (self a) = graph (self b) → edges_included (self a) (self b))
      as Hinc by (intros a b Hab current e; unfold neighbors_of; by rewrite Hab).
    destruct (findMaxExperiences_edges_included start u1 u2 (Hinc _ _ Hg))
      as (r1 & r2 & H1 & H2 & Hle).
    destruct (findMaxExperiences_edges_included start u2 u1 (Hinc _ _ (eq_sym Hg)))
      as (r2' & r1' & H2' & H1' & Hge).
    rewrite H1, H2. rewrite H1 in H1'. rewrite H2 in H2'.
    injection H1' as <-. injection H2' as <-. f_equal. lia. }
  split.
  - apply Hsame.
    by apply shareKnowledge_returns_inv in Hrun as (? & ? & _ & (Hg & _) & _).
  - destruct (distributeFrom_returns from s) as (r & evs & Hdist & _).
    exists r, (with_distribution s (list_to_set (planted evs)) evs).
    split; [done|]. by apply Hsame.
Qed.

Lemma X19_enumerator_after_other_traversals_witness :
  shareKnowledge 5 "experience1" 10000 demo = Some ((), demo_after_broadcast)
  ∧ fst <$> findMaxExperiences "experience1" demo_after_broadcast
    = fst <$> findMaxExperiences "experience1" demo
  ∧ ∃ r s'',
      distributeFrom "experience1" demo = Some (r, s'')
      ∧ fst <$> findMaxExperiences "experience1" s''
        = fst <$> findMaxExperiences "experience1" demo.
Proof.
  split; [exact demo_broadcast_returns|].
  exact (X19_enumerator_after_other_traversals demo demo_after_broadcast 5
           "experience1" "experience1" 10000 demo_broadcast_returns).
Defined.

(** X20: the distribution reads the graph and the canoes and nothing
    else, so a broadcast that returns does not change what it returns:
    [distributeFrom] gives after the broadcast the number it gave before,
    and plants the same islands. *)
Theorem X20_distribution_after_broadcast (s s' : Runtime) (steps : nat)
    (from start : string) (visitInterval : Z) :
  shareKnowledge steps from visitInterval s = Some ((), s') →
  ∃ r s1 s1',
    distributeFrom start s = Some (r, s1)
    ∧ distributeFrom start s' = Some (r, s1')
    ∧ resourcesDistributed (self s1') = resourcesDistributed (self s1).
Proof.
  intros Hrun.
  apply shareKnowledge_returns_inv in Hrun
    as (? & ? & _ & (Hg & _ & Hc & _) & _).
  destruct (distributeFrom_returns start s) as (r & evs & Hdist & _).
  destruct (distributeFrom_reads start s s' r _ (eq_sym Hg) (eq_sym Hc) Hdist)
    as (s1' & Hdist' & (_ & _ & Hd)).
  exists r, (with_distribution s (list_to_set (planted evs)) evs), s1'.
  by split_and!.
Qed.

Lemma X20_distribution_after_broadcast_witness :
  shareKnowledge 5 "experience1" 10000 demo = Some ((), demo_after_broadcast)
  ∧ ∃ r s1 s1',
      distributeFrom "experience1" demo = Some (r, s1)
      ∧ distributeFrom "experience1" demo_after_broadcast = Some (r, s1')
      ∧ resourcesDistributed (self s1') = resourcesDistributed (self s1).
Proof.
  split; [exact demo_broadcast_returns|].
  exact (X20_distribution_after_broadcast demo demo_after_broadcast 5
           "experience1" "experience1" 10000 demo_broadcast_returns).
Defined.

(** ** Further properties: when the broadcast returns *)

Lemma handled_prefix_app handled queue more :
  (∀ y, y ∈ more → y ∉ handled) →
  handled_prefix handled (queue ++ more) = handled_prefix handled queue.
Proof.
  intros Hmore. induction queue as [|y queue IH]; simpl.
  - destruct more as [|y more]; [done|]. simpl.
    rewrite decide_False; [done|]. apply Hmore, list_elem_of_here.
  - case_decide; [by rewrite IH|done].
Qed.

(** One edge of the broadcast always returns; when it queues a target
    that had been seen, the time since that target's last visit exceeds
    the interval. *)
Lemma shareKnowledge_edge_returns visitInterval e v q w :
  ∃ v' q' w',
    shareKnowledge_edge visitInterval e (v, q) w = Some ((v', q'), w')
    ∧ self w' = self w ∧ clock w' = clock w
    ∧ (reads w ≤ reads w' ≤ S (reads w))%nat
    ∧ ((v' = v ∧ q' = q)
       ∨ (v' = v ∪ {[node e]} ∧ q' = q ++ [node e]
          ∧ (node e ∈ v →
             num_gtb (num_sub (Fin (clock w (reads w)))
                              (or_zero (lastVisit (self w) !! node e)))
                     (Fin visitInterval) = true))).
Proof.
  unfold shareKnowledge_edge, mbind, M_bind.
  destruct (decide (node e ∈ v)) as [Hmem|Hmem]; simpl.
  - destruct (num_gtb _ _) eqn:Hgt; simpl; eexists _, _, _;
      (split; [reflexivity|]); simpl; split_and!; try done; try lia.
    + by right.
    + by left.
  - eexists _, _, _. split; [reflexivity|]. simpl. split_and!; try done; try lia.
    by right.
Qed.

(** An island stamped during a calm broadcast is not queued again. *)
Lemma calm_not_requeued s w visitInterval y :
  calm s visitInterval → clock w = clock s →
  stamped_during s w y →
  num_gtb (num_sub (Fin (clock w (reads w))) (or_zero (lastVisit (self w) !! y)))
          (Fin visitInterval) = false.
Proof.
  intros Hcalm Hclk (n & Hn & Hlv). rewrite Hlv, Hclk. simpl.
  specialize (Hcalm n (reads w) ltac:(lia)).
  destruct (Z.eqb_spec (clock s n) 0) as [Hz|Hz]; simpl;
    apply bool_decide_eq_false; lia.
Qed.

Lemma targets_neighbors o y :
  y ∈ targets (graph o) → ∃ current e, e ∈ neighbors_of o current ∧ node e = y.
Proof.
  unfold targets. intros (X & HX & Hy)%elem_of_union_list.
  apply list_elem_of_fmap in HX as ([current ns] & -> & Hns).
  apply elem_of_map_to_list in Hns. simpl in Hy.
  apply elem_of_list_to_set, list_elem_of_fmap in Hy as (e & -> & He).
  exists current, e. split; [|done]. unfold neighbors_of. by rewrite Hns.
Qed.

(** A calm broadcast over islands with names empties its queue. *)
Lemma broadcast_terminates s start visitInterval :
  calm s visitInterval → start ≠ "" → named_targets (self s) →
  ∀ n k u visited queue handled,
    (size (({[start]} ∪ targets (graph (self s))) ∖ handled) ≤ n)%nat →
    (handled_prefix handled queue ≤ k)%nat →
    broadcast_progress s start u visited queue handled →
    ∃ steps u', shareKnowledge_loop steps visitInterval visited queue u = Some ((), u').
Proof.
  intros Hcalm Hstart Hnamed.
  set (U := {[start]} ∪ targets (graph (self s))).
  assert (∀ y, y ∈ U → y ≠ "") as HU.
  { intros y [->%elem_of_singleton|Hy]%elem_of_union; [done|].
    apply targets_neighbors in Hy as (current & e & He & <-). by eapply Hnamed. }
  induction n as [n IHn] using lt_wf_ind. intros k.
  induction k as [k IHk] using lt_wf_ind.
  intros u visited queue handled Hn Hk (Hg & Hclk & Hreads & Hvis & Hh & Hq & Hst).
  destruct queue as [|z rest]; [by exists 0%nat, u|].
  assert (z ∈ visited) as Hz by apply Hq, list_elem_of_here.
  assert (z ≠ "") as Hzne by apply HU, Hvis, Hz.
  set (o1 := set_lastVisit (<[z := Fin (clock u (reads u))]> (lastVisit (self u))) (self u)).
  set (u1 := mkRuntime o1 (clock u) (S (reads u))
               (console u ++ [Visited z (populations o1 !! z) (lastVisit o1 !! z)])
               (probes u)).
  set (handled' := handled ∪ {[z]}).
  assert (∀ w y, self w = o1 → (reads u1 ≤ reads w)%nat → y ∈ handled' →
            stamped_during s w y) as Hst'.
  { intros w y Hw Hr [Hy | ->%elem_of_singleton]%elem_of_union.
    - destruct (decide (y = z)) as [->|Hne].
      + exists (reads u). rewrite Hw. simpl in *. rewrite lookup_insert_eq, Hclk.
        split; [lia|done].
      + destruct (Hst y Hy) as (n0 & Hn0 & Hlv). exists n0. rewrite Hw. simpl in *.
        rewrite lookup_insert_ne by done. split; [lia|done].
    - exists (reads u). rewrite Hw. simpl in *. rewrite lookup_insert_eq, Hclk.
      split; [lia|done]. }
  set (I := λ (acc : gset string * list string) (w : Runtime),
         self w = o1 ∧ clock w = clock s ∧ (reads u1 ≤ reads w)%nat
         ∧ acc.1 ⊆ U ∧ handled' ⊆ acc.1
         ∧ (∃ more, acc.2 = rest ++ more ∧ ∀ y, y ∈ more → y ∉ handled')
         ∧ (∀ y, y ∈ acc.2 → y ∈ acc.1)).
  destruct (returns_for_of (shareKnowledge_edge visitInterval) I (neighbors_of o1 z))
    with (acc := (visited, rest)) (s := u1)
    as ([v' q'] & w & Hloop & Hw & Hwc & Hwr & Hv' & Hh' & (more & Hq' & Hmore) & Hqv).
  { intros e [v q] w He (Hw & Hwc & Hwr & Hv & Hhv & (more & Hqeq & Hmore) & Hqv).
    simpl in Hv, Hhv, Hqv, Hqeq. subst q. unfold u1 in Hwr. simpl in Hwr.
    destruct (shareKnowledge_edge_returns visitInterval e v (rest ++ more) w)
      as (v2 & q2 & w2 & Hedge & Hw2 & Hc2 & Hr2 & Hcase).
    exists (v2, q2), w2. split; [done|]. unfold I. simpl.
    destruct Hcase as [[-> ->]|(-> & -> & Hgt)].
    - split_and!; try congruence; try lia; try done. by exists more.
    - assert (node e ∈ U) as HeU.
      { apply elem_of_union. right. rewrite <- Hg.
        apply (neighbors_of_targets (self u) z). unfold neighbors_of in *.
        subst o1. by simpl in He. }
      split_and!; try congruence; try lia.
      + set_solver.
      + set_solver.
      + exists (more ++ [node e]). split; [by rewrite app_assoc|].
        intros y [Hy | ->%list_elem_of_singleton]%elem_of_app; [by apply Hmore|].
        intros Hin. specialize (Hgt (Hhv _ Hin)).
        rewrite (calm_not_requeued s w visitInterval (node e)) in Hgt; try done.
        by apply Hst'.
      + intros y [Hy | ->%list_elem_of_singleton]%elem_of_app; [|set_solver].
        apply elem_of_union. left. by apply Hqv. }
  { unfold I. simpl. split_and!; try done.
    - subst handled'. set_solver.
    - exists []. split; [by rewrite app_nil_r|]. intros y Hy. by apply elem_of_nil in Hy.
    - intros y Hy. apply Hq. by apply list_elem_of_further. }
  simpl in Hv', Hh', Hq', Hqv. subst q'.
  assert (broadcast_progress s start w v' (rest ++ more) handled') as Hinv'.
  { unfold broadcast_progress. rewrite Hw. simpl. split_and!; try done.
    - unfold u1 in Hwr. simpl in Hwr. lia.
    - intros y Hy. by apply Hst'. }
  assert (∃ steps u', shareKnowledge_loop steps visitInterval v' (rest ++ more) w
                      = Some ((), u')) as (steps & u' & Hrest).
  { destruct (decide (z ∈ handled)) as [Hzh|Hzh].
    - assert (handled' = handled) as Heq by (subst handled'; set_solver).
      rewrite Heq in *. simpl in Hk. rewrite decide_True in Hk by done.
      assert (handled_prefix handled (rest ++ more) < k)%nat as Hlt
        by (rewrite handled_prefix_app by done; lia).
      by apply (IHk _ Hlt w v' (rest ++ more) handled).
    - assert (U ∖ handled' ⊂ U ∖ handled) as Hsub.
      { subst handled'. assert (z ∈ U) by by apply Hvis. set_solver. }
      apply subset_size in Hsub.
      assert (size (U ∖ handled') < n)%nat as Hlt by lia.
      by apply (IHn _ Hlt (handled_prefix handled' (rest ++ more)) w v'
                    (rest ++ more) handled'). }
  exists (S steps), u'. rewrite shareKnowledge_loop_step by done. cbv zeta.
  fold o1 u1. by rewrite Hloop.
Qed.

Lemma reachable_named o start y :
  start ≠ "" → named_targets o → rtc (passable o) start y → y ≠ "".
Proof.
  intros Hstart Hnamed Hreach. revert Hstart.
  induction Hreach as [x|x z y [Hx (e & He & <-)] _ IH]; intros Hstart; [done|].
  apply IH. by eapply Hnamed.
Qed.

(** X21: a broadcast returns when the clock is calm (it never advances by
    more than the interval from the start of the call on), the start
    island has a name and no edge leads to the island with the empty
    name: some number of iterations of the loop empties the queue, and
    then every island reachable from the start carries a timestamp of
    this broadcast. *)
Theorem X21_calm_broadcast_returns (s : Runtime) (start : string) (visitInterval : Z) :
  start ≠ "" → named_targets (self s) → calm s visitInterval →
  ∃ steps s',
    shareKnowledge steps start visitInterval s = Some ((), s')
    ∧ ∀ y, rtc (passable (self s)) start y →
        ∃ n, (reads s ≤ n < reads s')%nat
             ∧ lastVisit (self s') !! y = Some (Fin (clock s n)).
Proof.
  intros Hstart Hnamed Hcalm.
  set (u0 := mkRuntime (self s) (clock s) (reads s) (console s ++ [Starting start])
                       (probes s)).
  destruct (broadcast_terminates s start visitInterval Hcalm Hstart Hnamed
              (size (({[start]} ∪ targets (graph (self s))) ∖ ∅))
              (handled_prefix ∅ [start]) u0 {[start]} [start] ∅)
    as (steps & s' & Hrun); [done|done| |].
  { unfold broadcast_progress. simpl. split_and!; try done; set_solver. }
  assert (shareKnowledge steps start visitInterval s = Some ((), s')) as Hrun'
    by (unfold shareKnowledge, mbind, M_bind, console_log; exact Hrun).
  exists steps, s'. split; [done|]. intros y Hreach.
  apply shareKnowledge_returns_inv in Hrun' as (visited & handled & Hin & Hinv).
  destruct (broadcast_covers s s' visited handled start y Hinv Hin Hreach) as [_ Hst].
  apply Hst. by eapply reachable_named.
Qed.

Lemma two_cycle_named_targets clk : named_targets (self (two_cycle clk)).
Proof.
  intros current e.
  change (two_cycle clk)
    with (after (addIslandOrExperience "B" [mkNeighbor "A" 10 5] (Some 800))
            (after (addIslandOrExperience "A" [mkNeighbor "B" 10 5] (Some 1000))
               (boot (constructor 0) clk))).
  rewrite !neighbors_of_registered. repeat case_decide.
  - by intros ->%list_elem_of_singleton.
  - by intros ->%list_elem_of_singleton.
  - unfold neighbors_of. simpl. rewrite lookup_empty. simpl.
    intros He. by apply elem_of_nil in He.
Qed.

Lemma X21_calm_broadcast_returns_witness :
  ("A" ≠ "") ∧ named_targets (self (two_cycle frozen_clock))
  ∧ calm (two_cycle frozen_clock) 0
  ∧ ∃ steps s',
      shareKnowledge steps "A" 0 (two_cycle frozen_clock) = Some ((), s')
      ∧ ∀ y, rtc (passable (self (two_cycle frozen_clock))) "A" y →
          ∃ n, (reads (two_cycle frozen_clock) ≤ n < reads s')%nat
               ∧ lastVisit (self s') !! y = Some (Fin (clock (two_cycle frozen_clock) n)).
Proof.
  assert ("A" ≠ "") as Hstart by discriminate.
  assert (calm (two_cycle frozen_clock) 0) as Hcalm.
  { intros n m _. change (clock (two_cycle frozen_clock)) with frozen_clock.
    unfold frozen_clock. lia. }
  split; [exact Hstart|]. split; [exact (two_cycle_named_targets frozen_clock)|].
  split; [exact Hcalm|].
  exact (X21_calm_broadcast_returns (two_cycle frozen_clock) "A" 0 Hstart
           (two_cycle_named_targets frozen_clock) Hcalm).
Defined.
